(** * Request-defense layer of the contact endpoint

    A shallow embedding of [src/lib/rate-limit.ts], [src/lib/csrf.ts],
    the security utilities ([sanitizeInput], [validateEmail]) and the
    contact-form schema, followed by the properties stated about them.

    Conventions.
    - A JavaScript string is the list of its UTF-16 code units, each a [Z].
    - [Date.now()] is an explicit argument [now] (milliseconds, a [Z]).
    - A number that a caller chooses freely (the configuration of a rate
      limiter) is a rational [Q], compared with [==]; NaN, the infinities
      and the rounding of double arithmetic are left out.
    - A [Map] is a [gmap]; a method that mutates the map returns the new map
      next to its result. *)

From stdpp Require Import gmap list strings.
From Stdlib Require Import ZArith Lia QArith Lqa.

Local Open Scope Z_scope.

(** ** JavaScript strings *)

(** The code units of an ASCII literal. *)
Definition str (s : string) : list Z :=
  map (λ a, Z.of_N (Ascii.N_of_ascii a)) (String.list_ascii_of_string s).

(** ** JavaScript numbers *)

(** The order and the equality of numbers, decided. *)
#[global] Instance Qlt_decision (x y : Q) : Decision (x < y)%Q.
Proof.
  destruct (Qlt_le_dec x y) as [H|H]; [by left | right].
  by apply Qle_not_lt.
Defined.
#[global] Instance Qle_decision (x y : Q) : Decision (x <= y)%Q.
Proof.
  destruct (Qlt_le_dec y x) as [H|H]; [right | by left].
  by apply Qlt_not_le.
Defined.
#[global] Instance Qeq_decision (x y : Q) : Decision (x == y)%Q := Qeq_dec x y.

(** [Math.max(x, y)] *)
Definition Math_max (x y : Q) : Q := if decide (x < y)%Q then y else x.

(* ------------------------------------------------------------------ *)
(** ** Regular expressions, as the security utilities use them

    A backtracking matcher after the ECMAScript pattern semantics, for the
    constructs that occur in the patterns of the sources and in the email
    pattern of the schema library: character classes, sequence, alternation,
    greedy and lazy quantifiers, [^] and [$], negative lookahead, and the
    flags [i] and [s].  Every pattern is written in ASCII; under [i] a code
    unit outside ASCII never canonicalizes to an ASCII one, so
    [canonicalize] only has to fold the ASCII letters. *)

Module RegExp.

Inductive cls :=
| Chars (l : list Z)          (* one of the listed code units *)
| Range (lo hi : Z)           (* [lo-hi] *)
| Digit                       (* \d *)
| Word                        (* \w *)
| Space                       (* \s *)
| Dot                         (* . *)
| Union (a b : cls)           (* [ab] *)
| Neg (a : cls).              (* [^a] *)

Inductive re :=
| Empty
| Atom (c : cls)
| Cat (a b : re)
| Or (a b : re)
| Rep (greedy : bool) (min : nat) (max : option nat) (a : re)
| AssertStart                 (* ^ *)
| AssertEnd                   (* $ *)
| NegLookahead (a : re).      (* (?!a) *)

(** A regular expression object: the pattern and its flags [i] and [s]. *)
Record RegExp := {
  pattern : re;
  ignoreCase : bool;
  dotAll : bool;
}.

Definition between (lo hi x : Z) : bool := (lo <=? x) && (x <=? hi).

Definition canonicalize (x : Z) : Z := if between 97 122 x then x - 32 else x.
Definition lowered (x : Z) : Z := if between 65 90 x then x + 32 else x.

(** WhiteSpace and LineTerminator code units: what [\s] matches and what
    [trim] removes. *)
Definition is_space (x : Z) : bool :=
  between 9 13 x || (x =? 32) || (x =? 0xA0) || (x =? 0x1680)
  || between 0x2000 0x200A x || (x =? 0x2028) || (x =? 0x2029)
  || (x =? 0x202F) || (x =? 0x205F) || (x =? 0x3000) || (x =? 0xFEFF).

Definition is_line_terminator (x : Z) : bool :=
  (x =? 10) || (x =? 13) || (x =? 0x2028) || (x =? 0x2029).

Definition is_digit (x : Z) : bool := between 48 57 x.
Definition is_word (x : Z) : bool :=
  between 97 122 x || between 65 90 x || is_digit x || (x =? 95).

Fixpoint cls_matches (i s : bool) (c : cls) (x : Z) : bool :=
  match c with
  | Chars l =>
    existsb (λ a, if i then canonicalize a =? canonicalize x else a =? x) l
  | Range lo hi =>
    between lo hi x
    || (i && (between lo hi (canonicalize x) || between lo hi (lowered x)))
  | Digit => is_digit x
  | Word => is_word x
  | Space => is_space x
  | Dot => s || negb (is_line_terminator x)
  | Union a b => cls_matches i s a x || cls_matches i s b x
  | Neg a => negb (cls_matches i s a x)
  end.

(** The matcher state: how many code units lie before the current position,
    and the code units from it on. *)
Record MatchState := {
  endIndex : nat;
  rest : list Z;
}.

(** The RepeatMatcher: [m] matches the quantified atom, [k] what follows.
    An iteration that consumes nothing is refused once [min] is reached, so
    each further iteration either lowers [min] or shortens the input; the
    fuel the caller gives, [min + length + 1], is never used up. *)
Fixpoint repeat_matcher
    (m : (MatchState → option MatchState) → MatchState → option MatchState)
    (greedy : bool) (k : MatchState → option MatchState)
    (fuel : nat) (min : nat) (max : option nat) (x : MatchState)
    : option MatchState :=
  match fuel with
  | O => None
  | S fuel' =>
    match max with
    | Some O => k x
    | _ =>
      let d y :=
        if (min =? 0)%nat && (endIndex y =? endIndex x)%nat then None
        else repeat_matcher m greedy k fuel' (Nat.pred min) (Nat.pred <$> max) y in
      if negb (min =? 0)%nat then m d x
      else if greedy then
        match m d x with Some z => Some z | None => k x end
      else
        match k x with Some z => Some z | None => m d x end
    end
  end.

Fixpoint matcher (i s : bool) (r : re)
    (k : MatchState → option MatchState) (x : MatchState)
    : option MatchState :=
  match r with
  | Empty => k x
  | Atom c =>
    match rest x with
    | ch :: rest' =>
      if cls_matches i s c ch
      then k {| endIndex := S (endIndex x); rest := rest' |}
      else None
    | [] => None
    end
  | Cat a b => matcher i s a (matcher i s b k) x
  | Or a b =>
    match matcher i s a k x with
    | Some z => Some z
    | None => matcher i s b k x
    end
  | Rep greedy min max a =>
    repeat_matcher (matcher i s a) greedy k
      (min + length (rest x) + 1) min max x
  | AssertStart => if (endIndex x =? 0)%nat then k x else None
  | AssertEnd => match rest x with [] => k x | _ => None end
  | NegLookahead a =>
    match matcher i s a Some x with
    | Some _ => None
    | None => k x
    end
  end.

(** [y] is a state the matcher can reach from [x]: further right in the same
    input. *)
Definition after (x y : MatchState) : Prop :=
  (endIndex x + length (rest x) = endIndex y + length (rest y))%nat
  ∧ (endIndex x <= endIndex y)%nat.

(** A matcher calls its continuation on later states of the same input only. *)
Definition continues_after
    (m : (MatchState → option MatchState) → MatchState → option MatchState)
    : Prop :=
  ∀ k k' x, (∀ y, after x y → k y = k' y) → m k x = m k' x.

(** A match attempt at [index], where [suffix] starts; the end index of the
    match found. *)
Definition exec_at (R : RegExp) (index : nat) (suffix : list Z) : option nat :=
  endIndex <$>
    matcher (ignoreCase R) (dotAll R) (pattern R) Some
      {| endIndex := index; rest := suffix |}.

(** Whether the pattern matches at [index] or further right. *)
Fixpoint search (R : RegExp) (index : nat) (suffix : list Z) : bool :=
  match exec_at R index suffix with
  | Some _ => true
  | None =>
    match suffix with
    | [] => false
    | _ :: suffix' => search R (S index) suffix'
    end
  end.

(** [R.test(s)] for a pattern without the [g] flag. *)
Definition test (R : RegExp) (s : list Z) : bool := search R 0 s.

(** [s.replace(R, replacement)] for a pattern with the [g] flag, [replacement] having no [$]:
    scanning from the left, every match is replaced, the scan resuming at the
    end of the match, or one code unit further when the match is empty.
    [skip] counts the code units of a match still to be dropped. *)
Fixpoint replace_from (R : RegExp) (replacement : list Z) (index skip : nat)
    (s : list Z) : list Z :=
  match s with
  | [] =>
    match skip, exec_at R index [] with
    | O, Some _ => replacement
    | _, _ => []
    end
  | c :: s' =>
    match skip with
    | S n => replace_from R replacement (S index) n s'
    | O =>
      match exec_at R index s with
      | Some e =>
        match (e - index)%nat with
        | O => replacement ++ c :: replace_from R replacement (S index) O s'
        | S n => replacement ++ replace_from R replacement (S index) n s'
        end
      | None => c :: replace_from R replacement (S index) O s'
      end
    end
  end.

Definition replace (R : RegExp) (replacement : list Z) (s : list Z) : list Z :=
  replace_from R replacement 0 0 s.

(** [s.includes(needle)] *)
Fixpoint starts_with (needle s : list Z) : bool :=
  match needle, s with
  | [], _ => true
  | a :: needle', b :: s' => (a =? b) && starts_with needle' s'
  | _ :: _, [] => false
  end.

Fixpoint includes (needle s : list Z) : bool :=
  starts_with needle s
  || match s with
     | [] => false
     | _ :: s' => includes needle s'
     end.

(** [needle] is a substring of [s]. *)
Definition substring_of (needle s : list Z) : Prop :=
  ∃ before after, s = before ++ needle ++ after.

(** [s.trim()] *)
Fixpoint trimStart (s : list Z) : list Z :=
  match s with
  | c :: s' => if is_space c then trimStart s' else s
  | [] => []
  end.

Definition trimEnd (s : list Z) : list Z := rev (trimStart (rev s)).

Definition trim (s : list Z) : list Z := trimEnd (trimStart s).

(** A string that starts with no white space. *)
Definition starts_clean (s : list Z) : Prop :=
  match s with x :: _ => is_space x = false | [] => True end.

(** *** Writing patterns *)

Definition cat (l : list re) : re := foldr Cat Empty l.
Definition lit (s : string) : re := cat (map (λ a, Atom (Chars [a])) (str s)).
Definition star (c : cls) : re := Rep true 0 None (Atom c).
Definition plus (c : cls) : re := Rep true 1 None (Atom c).
Definition lazy_star (c : cls) : re := Rep false 0 None (Atom c).
Definition optional (a : re) : re := Rep true 0 (Some 1%nat) a.
Definition one_of (s : string) : cls := Chars (str s).

(** *** Patterns with the [g] flag and [test]

    A pattern with the [g] flag keeps its [lastIndex] between calls of
    [test]: the search starts there; a match moves [lastIndex] to its end, a
    failure puts it back to 0. *)

(** The end index of the first match at [index] or further right. *)
Fixpoint find_from (R : RegExp) (index : nat) (suffix : list Z) : option nat :=
  match exec_at R index suffix with
  | Some e => Some e
  | None =>
    match suffix with
    | [] => None
    | _ :: suffix' => find_from R (S index) suffix'
    end
  end.

(** [R.test(s)] for a pattern with the [g] flag: the result and the new
    [lastIndex]. *)
Definition test_global (R : RegExp) (lastIndex : nat) (s : list Z)
    : bool * nat :=
  if (length s <? lastIndex)%nat then (false, 0%nat)
  else
    match find_from R lastIndex (drop lastIndex s) with
    | Some e => (true, e)
    | None => (false, 0%nat)
    end.

(** [patterns.some(pattern => pattern.test(s))]: the patterns are tried in
    order and the first success ends the loop, so the patterns after it keep
    their [lastIndex]. *)
Fixpoint some_test (patterns : list RegExp) (lastIndexes : list nat)
    (s : list Z) : bool * list nat :=
  match patterns, lastIndexes with
  | R :: patterns', lastIndex :: lastIndexes' =>
    let '(found, lastIndex') := test_global R lastIndex s in
    if found then (true, lastIndex' :: lastIndexes')
    else
      let '(found', lastIndexes'') := some_test patterns' lastIndexes' s in
      (found', lastIndex' :: lastIndexes'')
  | _, _ => (false, lastIndexes)
  end.

(** *** Code units that a pattern can consume *)

(** Every character class of the pattern matches code units of [P] only. *)
Fixpoint atoms_only (P : Z → bool) (i s : bool) (r : re) : Prop :=
  match r with
  | Atom c => ∀ x, cls_matches i s c x = true → P x = true
  | Cat a b | Or a b => atoms_only P i s a ∧ atoms_only P i s b
  | Rep _ _ _ a => atoms_only P i s a
  | _ => True
  end.

(** The class is made of ASCII code units and ranges. *)
Fixpoint cls_ascii (c : cls) : bool :=
  match c with
  | Chars l => forallb (between 0 127) l
  | Range lo hi => (0 <=? lo) && (hi <=? 127)
  | Digit => true
  | Union a b => cls_ascii a && cls_ascii b
  | _ => false
  end.

(** A check of [atoms_only] for a pattern without flags whose classes are
    ASCII: it tries the 128 code units. *)
Fixpoint atoms_check (P : Z → bool) (r : re) : bool :=
  match r with
  | Atom c =>
    cls_ascii c
    && forallb (λ x, implb (cls_matches false false c x) (P x)) (seqZ 0 128)
  | Cat a b | Or a b => atoms_check P a && atoms_check P b
  | Rep _ _ _ a => atoms_check P a
  | _ => true
  end.

(** No character class of the pattern matches a code unit of [l]. *)
Fixpoint atoms_avoid (l : list Z) (i s : bool) (r : re) : bool :=
  match r with
  | Atom c => forallb (λ x, negb (cls_matches i s c x)) l
  | Cat a b | Or a b => atoms_avoid l i s a && atoms_avoid l i s b
  | Rep _ _ _ a => atoms_avoid l i s a
  | _ => true
  end.

(** The pattern is a sequence that ends with [$]. *)
Fixpoint ends_at_end (r : re) : bool :=
  match r with
  | AssertEnd => true
  | Cat a b =>
    ends_at_end b || (match b with Empty => ends_at_end a | _ => false end)
  | _ => false
  end.

(** *** Code units that a pattern cannot do without *)

Definition is_letter (x : Z) : bool := between 65 90 x || between 97 122 x.

(** The class is a list of code units taken from [marks], none of them a
    letter (so that the flag [i] does not widen it). *)
Definition cls_within (marks : list Z) (c : cls) : bool :=
  match c with
  | Chars l =>
    forallb (λ a, bool_decide (a ∈ marks) && negb (is_letter a)) l
  | _ => false
  end.

(** Every match of the pattern holds a code unit of [marks]. *)
Fixpoint must_hit (marks : list Z) (r : re) : bool :=
  match r with
  | Atom c => cls_within marks c
  | Cat a b => must_hit marks a || must_hit marks b
  | Or a b => must_hit marks a && must_hit marks b
  | Rep _ min max a =>
    negb (min =? 0)%nat && negb (bool_decide (max = Some 0%nat))
    && must_hit marks a
  | _ => false
  end.

End RegExp.

(* ------------------------------------------------------------------ *)
(** ** [src/lib/rate-limit.ts]

    The two fields of the configuration are numbers that the caller of the
    constructor chooses, and [resetTime] and [remaining] are computed from
    them: these are rationals.  [count] and [lastSeen] only ever hold what
    [check] writes, a count from 1 on and a clock reading: these are
    integers. *)

Module RateLimit.

Record RateLimitEntry := {
  count : Z;
  resetTime : Q;
  lastSeen : Z;
}.

Record RateLimitConfig := {
  window : Q;       (* time window in milliseconds *)
  maxRequests : Q;  (* maximum requests per window *)
}.

(** What [check] returns; [resetAt] is the source's result field
    [resetTime], renamed because the entry already has a field of that
    name. *)
Record CheckResult := {
  allowed : bool;
  remaining : Q;
  resetAt : Q;
}.

Definition DEFAULT_WINDOW : Q := 60 * 1000.
Definition DEFAULT_MAX_REQUESTS : Q := 5.

(** [x || d] on an optional number: [undefined] and [0] are falsy, every
    other number is kept as it is given. *)
Definition or_default (x : option Q) (d : Q) : Q :=
  match x with
  | Some v => if decide (v == 0)%Q then d else v
  | None => d
  end.

(** [constructor(config: Partial<RateLimitConfig> = {})] *)
Definition new_RateLimiter (w m : option Q) : RateLimitConfig :=
  {| window := or_default w DEFAULT_WINDOW;
     maxRequests := or_default m DEFAULT_MAX_REQUESTS |}.

(** [private cleanup(now)]: drop every entry not seen in twice the window. *)
Definition cleanup (cfg : RateLimitConfig) (now : Z)
    (store : gmap (list Z) RateLimitEntry) : gmap (list Z) RateLimitEntry :=
  let staleThreshold := (inject_Z now - window cfg * 2)%Q in
  filter (λ kv, ¬ (inject_Z (lastSeen kv.2) < staleThreshold)%Q) store.

(** The branch "first request or window expired". *)
Definition openWindow (cfg : RateLimitConfig) (now : Z) (identifier : list Z)
    (store : gmap (list Z) RateLimitEntry)
    : CheckResult * gmap (list Z) RateLimitEntry :=
  let newEntry :=
    {| count := 1;
       resetTime := inject_Z now + window cfg;
       lastSeen := now |} in
  ({| allowed := true;
      remaining := maxRequests cfg - 1;
      resetAt := resetTime newEntry |},
   cleanup cfg now (<[identifier := newEntry]> store)).

(** [check(identifier)] *)
Definition check (cfg : RateLimitConfig) (now : Z) (identifier : list Z)
    (store : gmap (list Z) RateLimitEntry)
    : CheckResult * gmap (list Z) RateLimitEntry :=
  match store !! identifier with
  | None => openWindow cfg now identifier store
  | Some entry =>
    if decide (inject_Z now > resetTime entry)%Q
    then openWindow cfg now identifier store
    else if decide (inject_Z (count entry) >= maxRequests cfg)%Q then
      ({| allowed := false; remaining := 0; resetAt := resetTime entry |},
       store)
    else
      let entry' :=
        {| count := count entry + 1;
           resetTime := resetTime entry;
           lastSeen := now |} in
      ({| allowed := true;
          remaining := maxRequests cfg - inject_Z (count entry');
          resetAt := resetTime entry' |},
       <[identifier := entry']> store)
  end.

(** [reset(identifier)] and [clear()] *)
Definition reset (identifier : list Z) (store : gmap (list Z) RateLimitEntry)
    : gmap (list Z) RateLimitEntry := delete identifier store.
Definition clear (store : gmap (list Z) RateLimitEntry)
    : gmap (list Z) RateLimitEntry := ∅.

(** The pre-configured limiters. *)
Definition contactFormLimiter : RateLimitConfig :=
  new_RateLimiter (Some (60 * 1000)%Q) (Some 3%Q).
Definition apiLimiter : RateLimitConfig :=
  new_RateLimiter (Some (60 * 1000)%Q) (Some 10%Q).
Definition authLimiter : RateLimitConfig :=
  new_RateLimiter (Some (15 * 60 * 1000)%Q) (Some 5%Q).

(** *** Runs of calls *)

(** Calls of [check] for one identifier at the given clock readings, in
    order; the results and the final store. *)
Fixpoint checks (cfg : RateLimitConfig) (identifier : list Z) (times : list Z)
    (store : gmap (list Z) RateLimitEntry)
    : list CheckResult * gmap (list Z) RateLimitEntry :=
  match times with
  | [] => ([], store)
  | now :: rest =>
    let '(r, store') := check cfg now identifier store in
    let '(rs, store'') := checks cfg identifier rest store' in
    (r :: rs, store'')
  end.

(** A call of one of the public methods that touch the store. *)
Inductive call :=
| Check (now : Z) (identifier : list Z)
| Reset (identifier : list Z)
| Clear.

Definition step (cfg : RateLimitConfig) (c : call)
    (store : gmap (list Z) RateLimitEntry)
    : option CheckResult * gmap (list Z) RateLimitEntry :=
  match c with
  | Check now identifier =>
    let '(r, store') := check cfg now identifier store in (Some r, store')
  | Reset identifier => (None, reset identifier store)
  | Clear => (None, clear store)
  end.

(** A sequence of calls; the result of every [check] for [watched], in
    order, and the final store. *)
Fixpoint run (cfg : RateLimitConfig) (watched : list Z) (calls : list call)
    (store : gmap (list Z) RateLimitEntry)
    : list CheckResult * gmap (list Z) RateLimitEntry :=
  match calls with
  | [] => ([], store)
  | c :: rest =>
    let '(r, store') := step cfg c store in
    let '(rs, store'') := run cfg watched rest store' in
    (match c, r with
     | Check _ identifier, Some res =>
       if decide (identifier = watched) then res :: rs else rs
     | _, _ => rs
     end, store'')
  end.

(** The clock reading of a call, when it has one. *)
Definition call_time (c : call) : option Z :=
  match c with Check now _ => Some now | _ => None end.

(** Every clock reading in [calls] is at least [t0] and the readings never
    decrease. *)
Fixpoint clock_from (t0 : Z) (calls : list call) : Prop :=
  match calls with
  | [] => True
  | c :: rest =>
    match call_time c with
    | Some now => t0 <= now ∧ clock_from now rest
    | None => clock_from t0 rest
    end
  end.

(** The stores a limiter can hold, with the latest clock reading: the
    store starts empty and only the methods change it, the clock never
    running backwards. *)
Inductive reachable (cfg : RateLimitConfig)
    : Z → gmap (list Z) RateLimitEntry → Prop :=
| reach_new t : reachable cfg t ∅
| reach_check t store now identifier :
    reachable cfg t store → t <= now →
    reachable cfg now (check cfg now identifier store).2
| reach_reset t store identifier :
    reachable cfg t store → reachable cfg t (reset identifier store)
| reach_clear t store :
    reachable cfg t store → reachable cfg t (clear store).


(** Every entry of a store counts between 1 and [maxRequests]. *)
Definition counts_bounded (cfg : RateLimitConfig)
    (store : gmap (list Z) RateLimitEntry) : Prop :=
  ∀ k e, store !! k = Some e →
    1 <= count e ∧ (inject_Z (count e) <= maxRequests cfg)%Q.

(** An entry as the clock and the window allow it: it was last seen inside
    its own window and not after the latest clock reading. *)
Definition entry_timed (cfg : RateLimitConfig) (t : Z) (e : RateLimitEntry)
    : Prop :=
  (resetTime e - window cfg <= inject_Z (lastSeen e))%Q ∧ lastSeen e <= t.

Definition store_timed (cfg : RateLimitConfig) (t : Z)
    (store : gmap (list Z) RateLimitEntry) : Prop :=
  ∀ k e, store !! k = Some e → entry_timed cfg t e.

(** What a call at clock reading [t] or later can still see of an entry:
    nothing once its window has expired. *)
Definition live_at (t : Z) (o : option RateLimitEntry)
    : option RateLimitEntry :=
  match o with
  | Some e => if decide (inject_Z t > resetTime e)%Q then None else Some e
  | None => None
  end.

(** [getStatus(identifier)]; [None] is the source's [null]. *)
Record Status := {
  status_count : Z;
  status_remaining : Q;
  status_resetTime : Q;
}.

Definition getStatus (cfg : RateLimitConfig) (identifier : list Z)
    (store : gmap (list Z) RateLimitEntry) : option Status :=
  match store !! identifier with
  | None => None
  | Some entry =>
    Some {| status_count := count entry;
            status_remaining :=
              Math_max 0 (maxRequests cfg - inject_Z (count entry));
            status_resetTime := resetTime entry |}
  end.

(** How many of the results are allowed calls of the window that ends at
    [r]. *)
Definition allowed_in (r : Q) (results : list CheckResult) : nat :=
  length (filter (λ res, allowed res = true ∧ (resetAt res == r)%Q) results).



End RateLimit.

(* ------------------------------------------------------------------ *)
(** ** [src/lib/csrf.ts] *)

Module Csrf.

(** How a call ends: it returns a value or throws. *)
Inductive error :=
| ERR_CRYPTO_TIMING_SAFE_EQUAL_LENGTH. (* RangeError: Input buffers must have
                                          the same byte length *)

Inductive outcome (A : Type) :=
| Returned (a : A)
| Thrown (e : error).
Arguments Returned {A} a.
Arguments Thrown {A} e.

#[global] Instance error_eq_dec : EqDecision error.
Proof. solve_decision. Defined.
#[global] Instance outcome_eq_dec `{EqDecision A} : EqDecision (outcome A).
Proof. solve_decision. Defined.

(** *** Node primitives *)

Definition is_high_surrogate (c : Z) : bool := (0xD800 <=? c) && (c <=? 0xDBFF).
Definition is_low_surrogate (c : Z) : bool := (0xDC00 <=? c) && (c <=? 0xDFFF).

(** The UTF-8 bytes of one code point. *)
Definition utf8_code_point (cp : Z) : list Z :=
  if cp <? 0x80 then [cp]
  else if cp <? 0x800 then
    [Z.lor 0xC0 (Z.shiftr cp 6); Z.lor 0x80 (Z.land cp 0x3F)]
  else if cp <? 0x10000 then
    [Z.lor 0xE0 (Z.shiftr cp 12);
     Z.lor 0x80 (Z.land (Z.shiftr cp 6) 0x3F);
     Z.lor 0x80 (Z.land cp 0x3F)]
  else
    [Z.lor 0xF0 (Z.shiftr cp 18);
     Z.lor 0x80 (Z.land (Z.shiftr cp 12) 0x3F);
     Z.lor 0x80 (Z.land (Z.shiftr cp 6) 0x3F);
     Z.lor 0x80 (Z.land cp 0x3F)].

(** [Buffer.from(string)]: the UTF-8 encoding; a surrogate pair is one code
    point, a lone surrogate becomes U+FFFD. *)
Fixpoint Buffer_from (s : list Z) : list Z :=
  match s with
  | [] => []
  | c :: rest =>
    if is_high_surrogate c then
      match rest with
      | d :: rest' =>
        if is_low_surrogate d then
          utf8_code_point (0x10000 + (c - 0xD800) * 0x400 + (d - 0xDC00))
            ++ Buffer_from rest'
        else utf8_code_point 0xFFFD ++ Buffer_from rest
      | [] => utf8_code_point 0xFFFD
      end
    else if is_low_surrogate c then utf8_code_point 0xFFFD ++ Buffer_from rest
    else utf8_code_point c ++ Buffer_from rest
  end.

(** [crypto.timingSafeEqual(a, b)]: throws unless the two buffers have the
    same byte length. *)
Definition timingSafeEqual (a b : list Z) : outcome bool :=
  if decide (length a = length b) then Returned (bool_decide (a = b))
  else Thrown ERR_CRYPTO_TIMING_SAFE_EQUAL_LENGTH.

Definition hex_digit (n : Z) : Z := if n <? 10 then 48 + n else 87 + n.

(** [buffer.toString('hex')]: two lower-case digits per byte. *)
Definition toString_hex (bytes : list Z) : list Z :=
  flat_map (λ b, [hex_digit (b / 16); hex_digit (b mod 16)]) bytes.

(** *** The token store *)

Record StoredToken := {
  token : list Z;
  createdAt : Z;
  expiresAt : Z;
}.

#[global] Instance StoredToken_eq_dec : EqDecision StoredToken.
Proof. solve_decision. Defined.

Definition TOKEN_TTL : Z := 60 * 60 * 1000.   (* 1 hour in milliseconds *)
Definition MAX_STORED_TOKENS : Z := 100.      (* prevent memory exhaustion *)

(** The value of the default argument [sessionId = 'default']. *)
Definition default_sessionId : list Z := str "default".

(** [cleanupExpiredTokens()], its own [Date.now()] being [now]. *)
Definition cleanupExpiredTokens (now : Z) (tokenStore : gmap (list Z) StoredToken)
    : gmap (list Z) StoredToken :=
  filter (λ kv, ¬ (now > expiresAt kv.2)) tokenStore.

(** [generateCSRFToken(sessionId)].  [random] is what [crypto.randomBytes(32)]
    returns, [now] the clock reading of the function itself and [now'] the
    later reading that [cleanupExpiredTokens] takes. *)
Definition generateCSRFToken (random : list Z) (now now' : Z)
    (sessionId : list Z) (tokenStore : gmap (list Z) StoredToken)
    : list Z * gmap (list Z) StoredToken :=
  let token := toString_hex random in
  let storedToken :=
    {| token := token; createdAt := now; expiresAt := now + TOKEN_TTL |} in
  let tokenStore := <[sessionId := storedToken]> tokenStore in
  let tokenStore :=
    if decide (Z.of_nat (size tokenStore) > MAX_STORED_TOKENS)
    then cleanupExpiredTokens now' tokenStore
    else tokenStore in
  (token, tokenStore).

(** [validateCSRFToken(token, sessionId)].  When [timingSafeEqual] throws,
    the statements after it do not run. *)
Definition validateCSRFToken (now : Z) (token sessionId : list Z)
    (tokenStore : gmap (list Z) StoredToken)
    : outcome bool * gmap (list Z) StoredToken :=
  match tokenStore !! sessionId with
  | None => (Returned false, tokenStore)
  | Some stored =>
    if decide (now > expiresAt stored) then
      (Returned false, delete sessionId tokenStore)
    else
      match timingSafeEqual (Buffer_from (Csrf.token stored))
                            (Buffer_from token) with
      | Thrown e => (Thrown e, tokenStore)
      | Returned isValid => (Returned isValid, delete sessionId tokenStore)
      end
  end.

(** [generateSessionId()], from the 16 bytes of [crypto.randomBytes(16)]. *)
Definition generateSessionId (random : list Z) : list Z := toString_hex random.

(** Issuing a token for each of the given session keys in turn, every clock
    reading being [now]. *)
Fixpoint issue_all (random : list Z) (now : Z) (sessionIds : list (list Z))
    (tokenStore : gmap (list Z) StoredToken) : gmap (list Z) StoredToken :=
  match sessionIds with
  | [] => tokenStore
  | sessionId :: rest =>
    issue_all random now rest
      (generateCSRFToken random now now sessionId tokenStore).2
  end.

(** [n] distinct session keys, of one code unit each. *)
Definition session_keys (n : nat) : list (list Z) :=
  map (λ i, [0x4E00 + Z.of_nat i]) (seq 0 n).

(** [getCSRFInput(sessionId)]: the form field name and the issued token. *)
Definition getCSRFInput (random : list Z) (now now' : Z)
    (sessionId : list Z) (tokenStore : gmap (list Z) StoredToken)
    : (list Z * list Z) * gmap (list Z) StoredToken :=
  let '(token, tokenStore) :=
    generateCSRFToken random now now' sessionId tokenStore in
  ((str "csrf_token", token), tokenStore).

(** Bytes, as [crypto.randomBytes] returns them. *)
Definition valid_bytes (bytes : list Z) : Prop :=
  Forall (λ b, 0 <= b < 256) bytes.

(** A lower-case hexadecimal digit, [0-9a-f]. *)
Definition is_lower_hex (c : Z) : bool :=
  ((48 <=? c) && (c <=? 57)) || ((97 <=? c) && (c <=? 102)).

End Csrf.

(* ------------------------------------------------------------------ *)
(** ** The security utilities ([sanitizeInput], [validateEmail]) *)

Module Security.
Import RegExp.

Definition MAX_EMAIL_LENGTH : nat := 255.

Definition gi (r : re) : RegExp :=
  {| pattern := r; ignoreCase := true; dotAll := false |}.
Definition gis (r : re) : RegExp :=
  {| pattern := r; ignoreCase := true; dotAll := true |}.
Definition g (r : re) : RegExp :=
  {| pattern := r; ignoreCase := false; dotAll := false |}.

(** [<name[^>]*>.*?</name>] *)
Definition tag_pair (name : string) : re :=
  cat [lit "<"; lit name; star (Neg (one_of ">")); lit ">";
       lazy_star Dot; lit "</"; lit name; lit ">"].

Definition DANGEROUS_PATTERNS : list RegExp := [
  gi (lit "javascript:");
  gi (lit "data:text/html");
  gi (lit "vbscript:");
  gi (cat [lit "on"; plus Word; star Space; lit "="]);
  gis (tag_pair "script");
  gis (tag_pair "iframe");
  gis (tag_pair "object");
  gis (tag_pair "embed");
  gis (tag_pair "form");
  gis (cat [lit "<input"; star (Neg (one_of ">")); lit ">"]);
  gis (tag_pair "button");
  gi (cat [lit "expression"; star Space; lit "("]);
  gi (lit "@import");
  gi (cat [lit "&#x"; plus (Union Digit (Range 97 102)); lit ";"]);
  gi (cat [lit "&#"; plus Digit; lit ";"]);
  gi (cat [lit "from"; star Space; lit "("; star Space;
           Atom (Chars [39; 34]); star Space; lit "javascript"])
].

(** [/[\x00-\x08\x0B\x0C\x0E-\x1F\x7F]/g] *)
Definition control_class : cls :=
  Union (Range 0 8) (Union (Chars [11; 12]) (Union (Range 14 31) (Chars [127]))).

Definition control_characters : RegExp := g (Atom control_class).

(** [/<[^>]*>/g] *)
Definition any_tag : RegExp :=
  g (cat [lit "<"; star (Neg (one_of ">")); lit ">"]).

(** The six replacements of the entity encoding, in the order of the source:
    [&], [<], [>], the double quote, the apostrophe and [/]. *)
Definition entity_encoding : list (Z * string) := [
  (38, "&amp;");
  (60, "&lt;");
  (62, "&gt;");
  (34, "&quot;");
  (39, "&#x27;");
  (47, "&#x2F;")
].

Definition encode_entities (s : list Z) : list Z :=
  fold_left (λ acc '(c, entity), replace (g (Atom (Chars [c]))) (str entity) acc)
            entity_encoding s.

(** [sanitizeInput(input)] *)
Definition sanitizeInput (input : list Z) : list Z :=
  match input with
  | [] => []
  | _ =>
    let sanitized := input in
    (* remove null bytes and control characters *)
    let sanitized := replace control_characters [] sanitized in
    (* remove dangerous HTML tags and event handlers *)
    let sanitized :=
      fold_left (λ acc pattern, replace pattern [] acc)
                DANGEROUS_PATTERNS sanitized in
    (* HTML entity encoding for common characters *)
    let sanitized := encode_entities sanitized in
    (* remove any remaining potential HTML tags *)
    let sanitized := replace any_tag [] sanitized in
    (* remove extra whitespace *)
    let sanitized := trim sanitized in
    (* limit length *)
    take 2000 sanitized
  end.

(** *** What the pipeline leaves *)

Definition is_control (x : Z) : bool := cls_matches false false control_class x.

(** The markup-significant code units other than [&]: [<], [>], the double
    quote, the apostrophe and [/]. *)
Definition is_markup (x : Z) : bool :=
  (x =? 60) || (x =? 62) || (x =? 34) || (x =? 39) || (x =? 47).

Definition clean (x : Z) : bool := negb (is_control x) && negb (is_markup x).

(** What the entity encoding writes for one code unit. *)
Definition entity_of (x : Z) : list Z :=
  if x =? 38 then str "&amp;"
  else if x =? 60 then str "&lt;"
  else if x =? 62 then str "&gt;"
  else if x =? 34 then str "&quot;"
  else if x =? 39 then str "&#x27;"
  else if x =? 47 then str "&#x2F;"
  else [x].

(** No dangerous pattern occurs anywhere in [s]. *)
Definition no_dangerous_pattern (s : list Z) : bool :=
  forallb (λ pattern, negb (search pattern 0 s)) DANGEROUS_PATTERNS.

(** The pattern of [validateEmail]. *)
Definition email_label : re :=
  let alnum := Union (Range 97 122) (Union (Range 65 90) Digit) in
  cat [Atom alnum;
       optional (cat [Rep true 0 (Some 61%nat) (Atom (Union alnum (one_of "-")));
                      Atom alnum])].

Definition emailRegex : RegExp :=
  let alnum := Union (Range 97 122) (Union (Range 65 90) Digit) in
  {| pattern :=
       cat [AssertStart;
            plus (Union alnum (one_of ".!#$%&'*+/=?^_`{|}~-"));
            lit "@";
            email_label;
            Rep true 0 None (cat [lit "."; email_label]);
            AssertEnd];
     ignoreCase := false;
     dotAll := false |}.

(** The code units that the pattern of [validateEmail] can consume: ASCII
    letters and digits, the punctuation of its first class, and [@]. *)
Definition email_char (x : Z) : bool :=
  is_letter x || is_digit x
  || bool_decide (x ∈ str ".!#$%&'*+/=?^_`{|}~-@").

(** [validateEmail(email)] *)
Definition validateEmail (email : list Z) : bool :=
  if negb (test emailRegex email) then false
  else if (MAX_EMAIL_LENGTH <? length email)%nat then false
  else if includes (str "+") email || includes (str "..") email then false
  else true.

(** [containsDangerousPatterns(input)].  The patterns carry the [g] flag, so
    the call reads and writes the [lastIndex] of each of them. *)
Definition containsDangerousPatterns (input : list Z) (lastIndexes : list nat)
    : bool * list nat :=
  some_test DANGEROUS_PATTERNS lastIndexes input.

(** The [lastIndex] values of patterns that were never used, or were last
    used by [replace] or by a failed [test]. *)
Definition fresh_lastIndexes : list nat :=
  replicate (length DANGEROUS_PATTERNS) 0%nat.

(** Code units of which every dangerous pattern needs at least one: [:], [=],
    [<], the opening parenthesis, [@] and [&]. *)
Definition trigger_marks : list Z := [58; 61; 60; 40; 64; 38].

(** Text that the pipeline has nothing to do with: no control character, no
    markup-significant code unit and no trigger mark. *)
Definition plain (x : Z) : bool :=
  negb (is_control x) && negb (is_markup x)
  && negb (bool_decide (x ∈ trigger_marks)).

(** *** The request-size guard *)

Definition MAX_REQUEST_SIZE : Z := 10 * 1024.

(** The value of the longest prefix of decimal digits, read after [acc]. *)
Fixpoint parse_digits (acc : Z) (s : list Z) : Z :=
  match s with
  | c :: s' => if is_digit c then parse_digits (acc * 10 + (c - 48)) s' else acc
  | [] => acc
  end.

(** [parseInt(s, 10)]; [None] is [NaN].  Leading white space is skipped, a
    sign is read, then the digits up to the first other code unit. *)
Definition parseInt10 (s : list Z) : option Z :=
  let s := trimStart s in
  let '(sign, s) :=
    match s with
    | c :: s' =>
      if c =? 45 then (-1, s') else if c =? 43 then (1, s') else (1, s)
    | [] => (1, s)
    end in
  match s with
  | c :: _ => if is_digit c then Some (sign * parse_digits 0 s) else None
  | [] => None
  end.

Record SizeCheck := {
  valid : bool;
  size : option Z;   (* [None] is [NaN] *)
}.

(** [validateRequestSize(request)], from the [content-length] header of the
    request ([None] when there is none).  A comparison with [NaN] is false.
    [size] is the integer that the digits denote, which is the code's number
    up to 2^53; beyond, JavaScript rounds it to a double, which leaves the
    comparison with 10240 as it is. *)
Definition validateRequestSize (contentLength : option (list Z)) : SizeCheck :=
  let size :=
    match contentLength with
    | Some (c :: l) => parseInt10 (c :: l)
    | _ => Some 0
    end in
  {| valid := match size with
              | Some n => bool_decide (n <= MAX_REQUEST_SIZE)
              | None => false
              end;
     size := size |}.

(** The decimal numeral of a natural number. *)
Fixpoint decimal_aux (fuel n : nat) (acc : list Z) : list Z :=
  match fuel with
  | O => acc
  | S fuel' =>
    let acc' := (48 + Z.of_nat (n mod 10)) :: acc in
    if (n <? 10)%nat then acc' else decimal_aux fuel' (n / 10) acc'
  end.

Definition decimal (n : nat) : list Z := decimal_aux (S n) n [].

End Security.

(* ------------------------------------------------------------------ *)
(** ** The contact-form schema, email field *)

Module Validations.

(** An issue raised by one check of the schema, with its message. *)
Inductive issue :=
| Invalid_email_address
| Email_must_be_at_least_5_characters
| Email_must_be_less_than_255_characters.

#[global] Instance issue_eq_dec : EqDecision issue.
Proof. solve_decision. Defined.

(** The email field of [contactFormSchema]: the checks of
    [z.string().email(..).min(5, ..).max(255, ..)] on a string value, returning
    the issues raised; every failed check adds its issue, none stops the
    others.  The pattern behind [.email()] belongs to the schema library;
    the check is the parameter [is_email], and [zod_email] below is the
    library's.  The transformations [toLowerCase()] and [trim()]
    come after the checks and raise no issue. *)
Definition contactFormSchema_email (is_email : list Z → bool) (value : list Z)
    : list issue :=
  (if is_email value then [] else [Invalid_email_address])
  ++ (if (length value <? 5)%nat
      then [Email_must_be_at_least_5_characters] else [])
  ++ (if (255 <? length value)%nat
      then [Email_must_be_less_than_255_characters] else []).

(** The field is accepted when no check raised an issue. *)
Definition email_accepted (is_email : list Z → bool) (value : list Z) : bool :=
  bool_decide (contactFormSchema_email is_email value = []).

(** The pattern that [.email()] tests.  It belongs to the schema library
    (zod 3.23 and later), not to the repository.  With the flag [i], and
    written here with blanks between its parts:
    ^ (?!\.) (?!.*\.\.) ( [A-Z0-9_'+\-\.]* ) [A-Z0-9_+-] @
    ( [A-Z0-9] [A-Z0-9\-]* \. )+ [A-Z]{2,} $ *)
Definition zod_emailRegex : RegExp.RegExp :=
  let alnum := RegExp.Union (RegExp.Range 65 90) RegExp.Digit in
  {| RegExp.pattern :=
       RegExp.cat
         [RegExp.AssertStart;
          RegExp.NegLookahead (RegExp.lit ".");
          RegExp.NegLookahead
            (RegExp.cat [RegExp.star RegExp.Dot; RegExp.lit ".."]);
          RegExp.star (RegExp.Union alnum (RegExp.one_of "_'+-."));
          RegExp.Atom (RegExp.Union alnum (RegExp.one_of "_+-"));
          RegExp.lit "@";
          RegExp.Rep true 1 None
            (RegExp.cat
               [RegExp.Atom alnum;
                RegExp.star (RegExp.Union alnum (RegExp.one_of "-"));
                RegExp.lit "."]);
          RegExp.Rep true 2 None (RegExp.Atom (RegExp.Range 65 90));
          RegExp.AssertEnd];
     RegExp.ignoreCase := true;
     RegExp.dotAll := false |}.

(** [.email()] of the schema library: the check passes when the pattern
    matches. *)
Definition zod_email (value : list Z) : bool :=
  RegExp.test zod_emailRegex value.

(** The policy as stated for the email field: whatever [accepts] lets through
    matches the pattern, is 5 to 255 code units long and contains neither a
    [+] nor a double dot. *)
Definition strict_email_policy (is_email accepts : list Z → bool) : Prop :=
  ∀ email, accepts email = true →
    is_email email = true
    ∧ (5 <= length email <= 255)%nat
    ∧ (43 ∉ email)
    ∧ ¬ RegExp.substring_of (str "..") email.

(** *** The name and message fields *)

Inductive name_issue :=
| Name_must_be_at_least_2_characters
| Name_must_be_less_than_100_characters
| Name_can_only_contain_letters_spaces_hyphens_and_apostrophes.

Inductive message_issue :=
| Message_must_be_at_least_10_characters
| Message_must_be_less_than_1000_characters
| Message_contains_invalid_characters.

#[global] Instance name_issue_eq_dec : EqDecision name_issue.
Proof. solve_decision. Defined.
#[global] Instance message_issue_eq_dec : EqDecision message_issue.
Proof. solve_decision. Defined.

(** A pattern of the form [^[class]{min,}$], without flags. *)
Definition whole_of (min : nat) (c : RegExp.cls) : RegExp.RegExp :=
  {| RegExp.pattern :=
       RegExp.cat [RegExp.AssertStart;
                   RegExp.Rep true min None (RegExp.Atom c);
                   RegExp.AssertEnd];
     RegExp.ignoreCase := false;
     RegExp.dotAll := false |}.

(** [a-zA-Z\s'-] *)
Definition name_class : RegExp.cls :=
  RegExp.Union (RegExp.Range 97 122)
    (RegExp.Union (RegExp.Range 65 90)
       (RegExp.Union RegExp.Space (RegExp.Chars [39; 45]))).

(** The characters of [a-zA-Z0-9\s!?.,'()] and the double quote. *)
Definition message_class : RegExp.cls :=
  RegExp.Union (RegExp.Range 97 122)
    (RegExp.Union (RegExp.Range 65 90)
       (RegExp.Union RegExp.Digit
          (RegExp.Union RegExp.Space
             (RegExp.Chars [33; 63; 46; 44; 39; 34; 40; 41])))).

(** The name field: [.min(2).max(100).trim().regex(/^[a-zA-Z\s'-]+$/)].  The
    checks run in the order written, each on the value as the steps before it
    left it: the two length checks see the raw value, the pattern the trimmed
    one.  The issues raised and the value put out. *)
Definition contactFormSchema_name (value : list Z)
    : list name_issue * list Z :=
  let too_short :=
    if (length value <? 2)%nat
    then [Name_must_be_at_least_2_characters] else [] in
  let too_long :=
    if (100 <? length value)%nat
    then [Name_must_be_less_than_100_characters] else [] in
  let value := RegExp.trim value in
  let bad_characters :=
    if RegExp.test (whole_of 1 name_class) value then []
    else [Name_can_only_contain_letters_spaces_hyphens_and_apostrophes] in
  (too_short ++ too_long ++ bad_characters, value).

(** The message field:
    [.min(10).max(1000).trim().regex(/^[a-zA-Z0-9\s!?.,'()]*$/)] (with the
    double quote in the class as well). *)
Definition contactFormSchema_message (value : list Z)
    : list message_issue * list Z :=
  let too_short :=
    if (length value <? 10)%nat
    then [Message_must_be_at_least_10_characters] else [] in
  let too_long :=
    if (1000 <? length value)%nat
    then [Message_must_be_less_than_1000_characters] else [] in
  let value := RegExp.trim value in
  let bad_characters :=
    if RegExp.test (whole_of 0 message_class) value then []
    else [Message_contains_invalid_characters] in
  (too_short ++ too_long ++ bad_characters, value).

(** The code units that the two patterns let through. *)
Definition name_char (x : Z) : bool :=
  RegExp.is_letter x || RegExp.is_space x || (x =? 39) || (x =? 45).

Definition message_char (x : Z) : bool :=
  RegExp.is_letter x || RegExp.is_digit x || RegExp.is_space x
  || bool_decide (x ∈ [33; 63; 46; 44; 39; 34; 40; 41]).

End Validations.

(* ------------------------------------------------------------------ *)
(** ** [src/app/api/contact/route.ts]

    The two handlers, as far as the status of the response and the two
    stores go.  Logging, the response headers and the second storage service
    do not change either and are left out.  A field of the request body is a
    string or is absent. *)

Module Route.

Record Body := {
  name : option (list Z);
  email : option (list Z);
  message : option (list Z);
  csrf_token : option (list Z);
  sessionId : option (list Z);
}.

Record Request := {
  content_length : option (list Z);    (* header [content-length] *)
  x_forwarded_for : option (list Z);   (* header [x-forwarded-for] *)
  x_real_ip : option (list Z);         (* header [x-real-ip] *)
  body : option Body;                  (* [None]: [request.json()] throws *)
}.

(** What the handlers depend on besides the request and the stores. *)
Record Environment := {
  production : bool;             (* [process.env.NODE_ENV === 'production'] *)
  is_email : list Z → bool;      (* the email pattern of the schema library *)
  database_ok : bool;            (* [db.contactSubmission.create] resolves *)
}.

(** A string that is present and not empty. *)
Definition truthy (v : option (list Z)) : bool :=
  match v with
  | Some (_ :: _) => true
  | _ => false
  end.

(** [x-forwarded-for || x-real-ip || 'unknown'] *)
Definition client_ip (request : Request) : list Z :=
  if truthy (x_forwarded_for request) then default [] (x_forwarded_for request)
  else if truthy (x_real_ip request) then default [] (x_real_ip request)
  else str "unknown".

(** [contactFormSchema.safeParse({ name, email, message }).success]: an
    absent field raises an issue of its own. *)
Definition schema_success (env : Environment) (b : Body) : bool :=
  match name b, email b, message b with
  | Some n, Some e, Some m =>
    bool_decide ((Validations.contactFormSchema_name n).1 = [])
    && Validations.email_accepted (is_email env) e
    && bool_decide ((Validations.contactFormSchema_message m).1 = [])
  | _, _, _ => false
  end.

(** [GET]: the status, the body [{ sessionId, csrfToken }] of a 200 response,
    and the token store.  [random1] and [random2] are the bytes of the two
    calls of [generateSessionId]. *)
Definition GET (random1 random2 : list Z) (now : Z)
    (tokenStore : gmap (list Z) Csrf.StoredToken)
    : Z * option (list Z * list Z) * gmap (list Z) Csrf.StoredToken :=
  let sessionId := Csrf.generateSessionId random1 in
  match Csrf.validateCSRFToken now (str "") sessionId tokenStore with
  | (Csrf.Returned _, tokenStore') =>
    (200, Some (sessionId, Csrf.generateSessionId random2), tokenStore')
  | (Csrf.Thrown _, tokenStore') => (500, None, tokenStore')
  end.

(** [POST]: the status and the two stores.  [now] is the clock reading of
    [check], [now'] that of [validateCSRFToken]. *)
Definition POST (env : Environment) (now now' : Z) (request : Request)
    (limiter : gmap (list Z) RateLimit.RateLimitEntry)
    (tokenStore : gmap (list Z) Csrf.StoredToken)
    : Z * gmap (list Z) RateLimit.RateLimitEntry
        * gmap (list Z) Csrf.StoredToken :=
  if negb (Security.valid (Security.validateRequestSize (content_length request)))
  then (413, limiter, tokenStore)
  else
    match body request with
    | None => (500, limiter, tokenStore)
    | Some b =>
      let '(rateLimitResult, limiter) :=
        RateLimit.check RateLimit.contactFormLimiter now (client_ip request)
          limiter in
      if negb (RateLimit.allowed rateLimitResult)
      then (429, limiter, tokenStore)
      else
        let validated :=
          if truthy (csrf_token b) && truthy (sessionId b) && production env
          then
            Csrf.validateCSRFToken now' (default [] (csrf_token b))
              (default [] (sessionId b)) tokenStore
          else (Csrf.Returned true, tokenStore) in
        match validated with
        | (Csrf.Thrown _, tokenStore) => (500, limiter, tokenStore)
        | (Csrf.Returned false, tokenStore) => (403, limiter, tokenStore)
        | (Csrf.Returned true, tokenStore) =>
          if negb (schema_success env b) then (400, limiter, tokenStore)
          else if negb (database_ok env) then (500, limiter, tokenStore)
          else (200, limiter, tokenStore)
        end
    end.

(** The token stores that the two handlers can leave, from the empty one. *)
Inductive served : gmap (list Z) Csrf.StoredToken → Prop :=
| served_start : served ∅
| served_GET random1 random2 now tokenStore :
    served tokenStore → served (GET random1 random2 now tokenStore).2
| served_POST env now now' request limiter tokenStore :
    served tokenStore →
    served (POST env now now' request limiter tokenStore).2.


(** The request gets past the size guard and its body can be read. *)
Definition readable (request : Request) : Prop :=
  Security.valid (Security.validateRequestSize (content_length request)) = true
  ∧ is_Some (body request).

End Route.

(* ================================================================== *)
(** * Properties of the request throttle *)

Lemma inject_Z_sub (x y : Z) : inject_Z (x - y) = (inject_Z x - inject_Z y)%Q.
Proof. unfold Z.sub, Qminus. by rewrite inject_Z_plus, inject_Z_opp. Qed.

(** Integer comparisons are moved to the rationals, where [lra] decides. *)
Ltac to_Q :=
  repeat match goal with
  | H : _ ∧ _ |- _ => destruct H
  | H : (_ <= _)%Z |- _ => rewrite Zle_Qle in H
  | H : (_ < _)%Z |- _ => rewrite Zlt_Qlt in H
  | H : (_ >= _)%Z |- _ => apply Z.ge_le in H
  | H : (_ > _)%Z |- _ => apply Z.gt_lt in H
  | H : ¬ (_ <= _)%Z |- _ => apply Z.nle_gt in H
  | H : ¬ (_ < _)%Z |- _ => apply Z.nlt_ge in H
  | H : ¬ (_ >= _)%Z |- _ => apply Z.nle_gt in H
  | H : ¬ (_ > _)%Z |- _ => apply Z.nlt_ge in H
  | |- (_ <= _)%Z => rewrite Zle_Qle
  | |- (_ < _)%Z => rewrite Zlt_Qlt
  | |- (_ >= _)%Z => apply Z.le_ge
  | |- (_ > _)%Z => apply Z.lt_gt
  end;
  rewrite ?inject_Z_plus, ?inject_Z_sub, ?inject_Z_mult, ?inject_Z_opp in *;
  unfold inject_Z in *.
Ltac qlra := to_Q; lra.

Section RateLimitFacts.
Import RateLimit.
Variable cfg : RateLimitConfig.
Implicit Types (store : gmap (list Z) RateLimitEntry) (now : Z)
  (identifier : list Z) (e : RateLimitEntry).

Lemma cleanup_lookup now store k :
  cleanup cfg now store !! k =
  match store !! k with
  | Some e =>
    if decide (inject_Z (lastSeen e) < inject_Z now - window cfg * 2)%Q
    then None else Some e
  | None => None
  end.
Proof.
  unfold cleanup. rewrite map_lookup_filter.
  destruct (store !! k) as [e|]; simpl; [|done].
  destruct (decide (inject_Z (lastSeen e) < inject_Z now - window cfg * 2)%Q).
  - rewrite option_guard_False; [done | tauto].
  - by rewrite option_guard_True.
Qed.


Lemma openWindow_lookup now identifier store :
  (0 <= window cfg)%Q →
  (openWindow cfg now identifier store).2 !! identifier =
  Some {| count := 1; resetTime := inject_Z now + window cfg;
          lastSeen := now |}.
Proof.
  intros HW. unfold openWindow; simpl.
  rewrite cleanup_lookup, lookup_insert_eq; simpl.
  rewrite decide_False; [done | lra].
Qed.

Lemma check_blocked now identifier store e :
  store !! identifier = Some e →
  ¬ (inject_Z now > resetTime e)%Q →
  (inject_Z (count e) >= maxRequests cfg)%Q →
  check cfg now identifier store =
  ({| allowed := false; remaining := 0; resetAt := resetTime e |}, store).
Proof.
  intros He Hcur Hfull. unfold check. rewrite He.
  rewrite decide_False by done. by rewrite decide_True.
Qed.


End RateLimitFacts.

(** The limit is an integer: what the count bound and the rate bound need. *)
Section IntegerLimit.
Import RateLimit.
Variable cfg : RateLimitConfig.
Variable N : Z.
Hypothesis limit_integer : (maxRequests cfg == inject_Z N)%Q.
Hypothesis limit_pos : 1 <= N.
Implicit Types (store : gmap (list Z) RateLimitEntry) (now : Z)
  (identifier : list Z) (e : RateLimitEntry).

Lemma below_limit (c : Z) : (inject_Z c < maxRequests cfg)%Q ↔ c < N.
Proof. by rewrite limit_integer, <- Zlt_Qlt. Qed.

Lemma within_limit (c : Z) : (inject_Z c <= maxRequests cfg)%Q ↔ c <= N.
Proof. by rewrite limit_integer, <- Zle_Qle. Qed.

Lemma cleanup_counts_bounded now store :
  counts_bounded cfg store → counts_bounded cfg (cleanup cfg now store).
Proof.
  intros H k e. rewrite cleanup_lookup.
  destruct (store !! k) as [e'|] eqn:Hk; [|done].
  case_decide; [done|]. intros [= <-]. by eapply H.
Qed.

Lemma check_counts_bounded now identifier store :
  counts_bounded cfg store →
  counts_bounded cfg (check cfg now identifier store).2.
Proof.
  intros H. unfold check.
  assert (Hopen : counts_bounded cfg (openWindow cfg now identifier store).2).
  { unfold openWindow; simpl. apply cleanup_counts_bounded.
    intros k e. rewrite lookup_insert. case_decide.
    - intros [= <-]; simpl. split; [lia|]. by apply within_limit.
    - apply H. }
  destruct (store !! identifier) as [e|] eqn:He; [|done].
  case_decide; [done|]. case_decide as Hroom; [done|]. simpl.
  intros k e'. rewrite lookup_insert. case_decide.
  - intros [= <-]; simpl. destruct (H _ _ He) as [Hlo Hhi].
    apply Qnot_le_lt, below_limit in Hroom.
    split; [lia|]. apply within_limit. lia.
  - apply H.
Qed.

Lemma check_remaining_nonneg now identifier store :
  counts_bounded cfg store →
  (0 <= remaining (check cfg now identifier store).1)%Q.
Proof.
  intros H. unfold check, openWindow.
  assert (Hone : (1 <= maxRequests cfg)%Q) by (apply (within_limit 1); lia).
  destruct (store !! identifier) as [e|] eqn:He; simpl; [|lra].
  case_decide; simpl; [lra|]. case_decide as Hroom; simpl; [lra|].
  apply Qnot_le_lt, below_limit in Hroom.
  assert (H2 : (inject_Z (count e + 1) <= maxRequests cfg)%Q)
    by (apply within_limit; lia).
  lra.
Qed.

Lemma run_cons watched c calls store :
  run cfg watched (c :: calls) store =
  let '(r, store') := step cfg c store in
  let '(rs, store'') := run cfg watched calls store' in
  (match c, r with
   | Check _ identifier, Some res =>
     if decide (identifier = watched) then res :: rs else rs
   | _, _ => rs
   end, store'').
Proof. done. Qed.

Lemma run_counts_bounded watched calls store :
  counts_bounded cfg store →
  counts_bounded cfg (run cfg watched calls store).2
  ∧ Forall (λ r, (0 <= remaining r)%Q) (run cfg watched calls store).1.
Proof.
  revert store.
  induction calls as [|c calls IH]; intros store H; [by split|].
  rewrite run_cons.
  destruct c as [now identifier|identifier|]; simpl.
  - pose proof (check_counts_bounded now identifier store H) as Hb.
    pose proof (check_remaining_nonneg now identifier store H) as Hr.
    destruct (check cfg now identifier store) as [r store'].
    destruct (IH store' Hb) as [IH1 IH2].
    destruct (run cfg watched calls store') as [rs store'']. simpl in *.
    split; [done|]. case_decide; [by constructor | done].
  - assert (Hb : counts_bounded cfg (reset identifier store)).
    { intros k e. unfold reset. rewrite lookup_delete.
      case_decide; [done | apply H]. }
    destruct (IH _ Hb) as [IH1 IH2].
    by destruct (run cfg watched calls (reset identifier store)).
  - assert (Hb : counts_bounded cfg (clear store)) by (by intros k e).
    destruct (IH _ Hb) as [IH1 IH2].
    by destruct (run cfg watched calls (clear store)).
Qed.

End IntegerLimit.

Section ThrottleRuns.
Import RateLimit.
Variable cfg : RateLimitConfig.
Implicit Types (store : gmap (list Z) RateLimitEntry) (now : Z)
  (identifier : list Z) (e : RateLimitEntry).

Lemma checks_cons identifier now times store :
  checks cfg identifier (now :: times) store =
  let '(r, store') := check cfg now identifier store in
  let '(rs, store'') := checks cfg identifier times store' in
  (r :: rs, store'').
Proof. done. Qed.



Lemma checks_blocked identifier times store e :
  store !! identifier = Some e →
  (inject_Z (count e) >= maxRequests cfg)%Q →
  Forall (λ now, ¬ (inject_Z now > resetTime e)%Q) times →
  checks cfg identifier times store =
  (map (λ _, {| allowed := false; remaining := 0; resetAt := resetTime e |})
       times, store).
Proof.
  intros He Hfull. induction 1 as [|now times Hnow _ IH]; [done|].
  rewrite checks_cons, (check_blocked cfg now identifier store e) by done.
  by rewrite IH.
Qed.

End ThrottleRuns.




(** C8 — Blocked throttle calls leave state unchanged.  While the entry of an
    identifier is current ([now > resetTime] is false) and its count has
    reached [maxRequests], every call of [check] for it, however many, returns
    [allowed = false], [remaining = 0] and the entry's reset time, and the
    store (so the entry's count, reset time and last-seen time) is exactly
    what it was. *)
Theorem blocked_calls_leave_store
    (cfg : RateLimit.RateLimitConfig) (identifier : list Z)
    (store : gmap (list Z) RateLimit.RateLimitEntry)
    (e : RateLimit.RateLimitEntry) (times : list Z) :
  store !! identifier = Some e →
  (inject_Z (RateLimit.count e) >= RateLimit.maxRequests cfg)%Q →
  Forall (λ now, ¬ (inject_Z now > RateLimit.resetTime e)%Q) times →
  RateLimit.checks cfg identifier times store =
  (map (λ _, {| RateLimit.allowed := false;
                RateLimit.remaining := 0;
                RateLimit.resetAt := RateLimit.resetTime e |}) times,
   store).
Proof. apply checks_blocked. Qed.

Lemma blocked_calls_leave_store_witness :
  let cfg := RateLimit.contactFormLimiter in
  let e := {| RateLimit.count := 3; RateLimit.resetTime := 60000;
              RateLimit.lastSeen := 20 |} in
  let store : gmap (list Z) RateLimit.RateLimitEntry :=
    {[ str "10.0.0.1" := e ]} in
  (RateLimit.checks cfg (str "10.0.0.1") [30; 40; 60000] store).2 = store.
Proof.
  cbv zeta.
  rewrite (blocked_calls_leave_store RateLimit.contactFormLimiter
    (str "10.0.0.1") _
    {| RateLimit.count := 3; RateLimit.resetTime := 60000;
       RateLimit.lastSeen := 20 |} [30; 40; 60000]).
  - reflexivity.
  - apply lookup_singleton_eq.
  - vm_compute. discriminate.
  - repeat constructor; vm_compute; intros H; discriminate H.
Defined.

(** C10 — Throttle count upper bound.  On a limiter whose [maxRequests] is an
    integer [N >= 1], after any sequence of calls on an initially empty store
    every entry has [1 <= count <= maxRequests], and no [check] of the
    sequence returned a negative [remaining]. *)
Theorem throttle_count_bounded
    (cfg : RateLimit.RateLimitConfig) (N : Z) (watched : list Z)
    (calls : list RateLimit.call) :
  (RateLimit.maxRequests cfg == inject_Z N)%Q →
  1 <= N →
  (∀ k e, (RateLimit.run cfg watched calls ∅).2 !! k = Some e →
          1 <= RateLimit.count e
          ∧ (inject_Z (RateLimit.count e) <= RateLimit.maxRequests cfg)%Q)
  ∧ Forall (λ r, (0 <= RateLimit.remaining r)%Q)
           (RateLimit.run cfg watched calls ∅).1.
Proof.
  intros HN Hpos. apply (run_counts_bounded cfg N HN Hpos).
  intros k e. by rewrite lookup_empty.
Qed.

Lemma throttle_count_bounded_witness :
  Forall (λ r, (0 <= RateLimit.remaining r)%Q)
    (RateLimit.run RateLimit.contactFormLimiter (str "a")
       [RateLimit.Check 0 (str "a"); RateLimit.Check 1 (str "a");
        RateLimit.Check 2 (str "a"); RateLimit.Check 3 (str "a")] ∅).1.
Proof.
  apply (throttle_count_bounded RateLimit.contactFormLimiter 3 (str "a")).
  - reflexivity.
  - lia.
Defined.

(** C10, a limit that is not an integer.  The constructor keeps the number it
    is given; with [maxRequests = 2.5] the third call of a window still finds
    [count = 2 < 2.5], so it is allowed, the count becomes 3 and the call
    returns [remaining = -0.5]. *)
Lemma fractional_limit_is_exceeded :
  let cfg := RateLimit.new_RateLimiter (Some 1000%Q) (Some 2.5%Q) in
  let calls := [RateLimit.Check 0 (str "a"); RateLimit.Check 1 (str "a");
                RateLimit.Check 2 (str "a")] in
  let out := RateLimit.run cfg (str "a") calls ∅ in
  (1 <= RateLimit.maxRequests cfg)%Q
  ∧ (∃ e, out.2 !! str "a" = Some e ∧ RateLimit.count e = 3
          ∧ ¬ (inject_Z (RateLimit.count e) <= RateLimit.maxRequests cfg)%Q)
  ∧ (∃ r, last out.1 = Some r ∧ RateLimit.allowed r = true
          ∧ (RateLimit.remaining r < 0)%Q).
Proof.
  cbv zeta. split; [by vm_compute|]. split.
  - eexists. split; [by vm_compute|]. split; [done | by vm_compute].
  - eexists. split; [by vm_compute|]. split; [done | by vm_compute].
Qed.

Section ThrottleIsolation.
Import RateLimit.
Variable cfg : RateLimitConfig.
Hypothesis window_nonneg : (0 <= window cfg)%Q.
Implicit Types (store : gmap (list Z) RateLimitEntry) (now t : Z)
  (identifier : list Z) (e : RateLimitEntry).

Lemma store_timed_mono t t' store :
  t <= t' → store_timed cfg t store → store_timed cfg t' store.
Proof. intros Ht H k e He. destruct (H k e He). split; [done | lia]. Qed.

Lemma cleanup_timed now t store :
  store_timed cfg t store → store_timed cfg t (cleanup cfg now store).
Proof.
  intros H k e. rewrite cleanup_lookup.
  destruct (store !! k) as [e'|] eqn:Hk; [|done].
  case_decide; [done|]. intros [= <-]. by eapply H.
Qed.

Lemma openWindow_entry_timed now :
  entry_timed cfg now
    {| count := 1; resetTime := inject_Z now + window cfg; lastSeen := now |}.
Proof. split; simpl; [lra | lia]. Qed.

Lemma check_timed t now identifier store :
  t <= now → store_timed cfg t store →
  store_timed cfg now (check cfg now identifier store).2.
Proof.
  intros Ht H. apply (store_timed_mono t now) in H; [|done].
  assert (Hopen : store_timed cfg now (openWindow cfg now identifier store).2).
  { unfold openWindow; simpl. apply cleanup_timed.
    intros k e. rewrite lookup_insert. case_decide.
    - intros [= <-]. apply openWindow_entry_timed.
    - apply H. }
  unfold check. destruct (store !! identifier) as [e|] eqn:He; [|done].
  case_decide; [done|]. case_decide; [done|]. simpl.
  intros k e'. rewrite lookup_insert. case_decide.
  - intros [= <-]. destruct (H _ _ He) as [Hlo Hhi]. split; simpl; [|lia].
    qlra.
  - apply H.
Qed.

Lemma reachable_timed t store :
  reachable cfg t store → store_timed cfg t store.
Proof.
  induction 1 as [t|t store now identifier _ IH Ht|t store identifier _ IH
                  |t store _ IH].
  - intros k e. by rewrite lookup_empty.
  - by apply (check_timed t).
  - intros k e. unfold reset. rewrite lookup_delete.
    case_decide; [done | apply IH].
  - intros k e. unfold clear. by rewrite lookup_empty.
Qed.

(** A stale entry is an expired one. *)
Lemma stale_expired t now e :
  entry_timed cfg t e →
  (inject_Z (lastSeen e) < inject_Z now - window cfg * 2)%Q →
  (inject_Z now > resetTime e)%Q.
Proof. intros [H1 H2] Hs. lra. Qed.

Lemma live_at_mono t t' o1 o2 :
  t <= t' → live_at t o1 = live_at t o2 → live_at t' o1 = live_at t' o2.
Proof.
  intros Ht. rewrite Zle_Qle in Ht. unfold live_at.
  destruct o1 as [e1|], o2 as [e2|]; repeat case_decide;
    try done; try lra; intros [= <-]; lra.
Qed.

Lemma cleanup_live t now store k :
  store_timed cfg t store →
  live_at now (cleanup cfg now store !! k) = live_at now (store !! k).
Proof.
  intros H. rewrite cleanup_lookup.
  destruct (store !! k) as [e|] eqn:Hk; [|done].
  case_decide; [|done]. simpl.
  rewrite decide_True; [done|]. eapply stale_expired; [by eapply H | done].
Qed.

(** A call for another identifier changes nothing that is still live. *)
Lemma check_other_live t now a b store :
  a ≠ b → t <= now → store_timed cfg t store →
  live_at now ((check cfg now a store).2 !! b) = live_at now (store !! b).
Proof.
  intros Hab Ht H.
  assert (Hopen : live_at now ((openWindow cfg now a store).2 !! b)
                  = live_at now (store !! b)).
  { unfold openWindow; simpl. rewrite (cleanup_live now).
    - by rewrite lookup_insert_ne.
    - intros k e. rewrite lookup_insert. case_decide.
      + intros [= <-]. apply openWindow_entry_timed.
      + intros He. by apply (store_timed_mono t now store Ht H k). }
  unfold check. destruct (store !! a) as [e|] eqn:He; [|done].
  case_decide; [done|]. case_decide; [done|]. simpl.
  by rewrite lookup_insert_ne.
Qed.

(** A call sees of its own entry only what is still live. *)
Lemma check_same_live now b store1 store2 :
  live_at now (store1 !! b) = live_at now (store2 !! b) →
  (check cfg now b store1).1 = (check cfg now b store2).1
  ∧ (check cfg now b store1).2 !! b = (check cfg now b store2).2 !! b.
Proof.
  intros Hlive.
  assert (Hopen : ∀ s1 s2,
    (openWindow cfg now b s1).1 = (openWindow cfg now b s2).1
    ∧ (openWindow cfg now b s1).2 !! b = (openWindow cfg now b s2).2 !! b).
  { intros s1 s2. unfold openWindow; simpl. split; [done|].
    by rewrite !cleanup_lookup, !lookup_insert_eq. }
  unfold check, live_at in *.
  destruct (store1 !! b) as [e1|] eqn:H1, (store2 !! b) as [e2|] eqn:H2;
    repeat (case_decide; try done; simplify_eq; try lra);
    try apply Hopen; simpl; rewrite ?lookup_insert_eq, ?H1, ?H2; done.
Qed.

Lemma run_agree watched calls : ∀ t store1 store2,
  store_timed cfg t store1 → store_timed cfg t store2 →
  live_at t (store1 !! watched) = live_at t (store2 !! watched) →
  clock_from t calls →
  (run cfg watched calls store1).1 = (run cfg watched calls store2).1.
Proof.
  induction calls as [|c calls IH]; intros t store1 store2 T1 T2 Hl Hc;
    [done|].
  rewrite !run_cons. destruct c as [now identifier|identifier|]; simpl in *.
  - destruct Hc as [Ht Hc].
    pose proof (check_timed t now identifier store1 Ht T1) as T1'.
    pose proof (check_timed t now identifier store2 Ht T2) as T2'.
    apply (live_at_mono t now) in Hl; [|done].
    destruct (decide (identifier = watched)) as [->|Hne].
    + destruct (check_same_live now watched store1 store2 Hl) as [Hr Hs].
      destruct (check cfg now watched store1) as [r1 s1].
      destruct (check cfg now watched store2) as [r2 s2]. simpl in *.
      specialize (IH now s1 s2 T1' T2').
      rewrite Hs in IH. specialize (IH eq_refl Hc).
      destruct (run cfg watched calls s1), (run cfg watched calls s2).
      simpl in *. by subst.
    + pose proof (check_other_live t now identifier watched store1 Hne Ht T1)
        as H1.
      pose proof (check_other_live t now identifier watched store2 Hne Ht T2)
        as H2.
      destruct (check cfg now identifier store1) as [r1 s1].
      destruct (check cfg now identifier store2) as [r2 s2]. simpl in *.
      specialize (IH now s1 s2 T1' T2').
      rewrite H1, H2 in IH. specialize (IH Hl Hc).
      by destruct (run cfg watched calls s1), (run cfg watched calls s2).
  - specialize (IH t (reset identifier store1) (reset identifier store2)).
    destruct (run cfg watched calls (reset identifier store1)),
             (run cfg watched calls (reset identifier store2)).
    simpl. apply IH; [| |unfold reset; rewrite !lookup_delete; by case_decide
                     |done].
    + intros k e. unfold reset. rewrite lookup_delete.
      case_decide; [done | apply T1].
    + intros k e. unfold reset. rewrite lookup_delete.
      case_decide; [done | apply T2].
  - unfold clear. by destruct (run cfg watched calls ∅).
Qed.

End ThrottleIsolation.

(** C9 — Throttle isolation.  Take a store the limiter can hold (window
    positive, clock never running backwards) and distinct identifiers [a] and
    [b].  Whatever calls follow, the [allowed]/[remaining]/[resetTime] results
    of the calls of [check] for [b] are the same whether or not a call of
    [check] for [a] came first: the garbage collection that the call for [a]
    may trigger only removes entries whose window has already expired. *)
Theorem throttle_isolation
    (cfg : RateLimit.RateLimitConfig) (t now : Z) (a b : list Z)
    (store : gmap (list Z) RateLimit.RateLimitEntry)
    (calls : list RateLimit.call) :
  (0 < RateLimit.window cfg)%Q →
  RateLimit.reachable cfg t store →
  t <= now →
  a ≠ b →
  RateLimit.clock_from now calls →
  (RateLimit.run cfg b calls (RateLimit.check cfg now a store).2).1 =
  (RateLimit.run cfg b calls store).1.
Proof.
  intros HW Hreach Ht Hab Hclock.
  assert (HW' : (0 <= RateLimit.window cfg)%Q) by lra.
  pose proof (reachable_timed cfg t store Hreach) as Htimed.
  apply (run_agree cfg HW' b calls now); [| |
    by apply (check_other_live cfg HW' t) | done].
  - by apply (check_timed cfg t).
  - by apply (store_timed_mono cfg t now).
Qed.

Lemma throttle_isolation_witness :
  let cfg := RateLimit.contactFormLimiter in
  let store := (RateLimit.check cfg 0 (str "b") ∅).2 in
  (RateLimit.check cfg 200000 (str "a") store).2 !! str "b" = None
  ∧ (RateLimit.run cfg (str "b") [RateLimit.Check 200001 (str "b")]
       (RateLimit.check cfg 200000 (str "a") store).2).1 =
    (RateLimit.run cfg (str "b") [RateLimit.Check 200001 (str "b")] store).1.
Proof.
  cbv zeta. split; [by vm_compute|].
  apply (throttle_isolation RateLimit.contactFormLimiter 0 200000
           (str "a") (str "b")).
  - reflexivity.
  - apply (RateLimit.reach_check _ 0); [constructor | reflexivity].
  - vm_compute. discriminate.
  - vm_compute. discriminate.
  - simpl. split; [vm_compute; discriminate | exact I].
Defined.

(* ================================================================== *)
(** * Properties of the anti-forgery token manager *)

Section CsrfFacts.
Import Csrf.
Implicit Types (tokenStore : gmap (list Z) StoredToken) (now : Z)
  (sessionId secret : list Z) (stored : StoredToken).

Lemma validate_absent now secret sessionId tokenStore :
  tokenStore !! sessionId = None →
  validateCSRFToken now secret sessionId tokenStore = (Returned false, tokenStore).
Proof. intros H. unfold validateCSRFToken. by rewrite H. Qed.

Lemma validate_expired now secret sessionId tokenStore stored :
  tokenStore !! sessionId = Some stored →
  now > expiresAt stored →
  validateCSRFToken now secret sessionId tokenStore =
  (Returned false, delete sessionId tokenStore).
Proof.
  intros H Hexp. unfold validateCSRFToken. rewrite H. by rewrite decide_True.
Qed.

(** A supplied secret of the stored secret's byte length is compared, and the
    entry is consumed whatever the comparison says. *)
Lemma validate_same_length now secret sessionId tokenStore stored :
  tokenStore !! sessionId = Some stored →
  ¬ now > expiresAt stored →
  length (Buffer_from (token stored)) = length (Buffer_from secret) →
  validateCSRFToken now secret sessionId tokenStore =
  (Returned (bool_decide (Buffer_from (token stored) = Buffer_from secret)),
   delete sessionId tokenStore).
Proof.
  intros H Hlive Hlen. unfold validateCSRFToken, timingSafeEqual. rewrite H.
  rewrite decide_False by done. by rewrite decide_True.
Qed.

(** A supplied secret of another byte length makes the comparison throw, and
    the entry stays. *)
Lemma validate_length_mismatch now secret sessionId tokenStore stored :
  tokenStore !! sessionId = Some stored →
  ¬ now > expiresAt stored →
  length (Buffer_from (token stored)) ≠ length (Buffer_from secret) →
  validateCSRFToken now secret sessionId tokenStore =
  (Thrown ERR_CRYPTO_TIMING_SAFE_EQUAL_LENGTH, tokenStore).
Proof.
  intros H Hlive Hlen. unfold validateCSRFToken, timingSafeEqual. rewrite H.
  rewrite decide_False by done. by rewrite decide_False.
Qed.

(** Whenever a validation returns, it leaves no entry for the session key, so
    the next validation for that key returns [false]. *)
Lemma validate_returned_consumes now secret sessionId tokenStore b tokenStore' :
  validateCSRFToken now secret sessionId tokenStore = (Returned b, tokenStore') →
  tokenStore' !! sessionId = None.
Proof.
  unfold validateCSRFToken.
  destruct (tokenStore !! sessionId) as [stored|] eqn:H.
  - case_decide.
    + intros [= _ <-]. apply lookup_delete_eq.
    + destruct (timingSafeEqual _ _); intros [= _ <-]. apply lookup_delete_eq.
  - by intros [= _ <-].
Qed.

Lemma validate_twice now now' secret secret' sessionId tokenStore b tokenStore' :
  validateCSRFToken now secret sessionId tokenStore = (Returned b, tokenStore') →
  (validateCSRFToken now' secret' sessionId tokenStore').1 = Returned false.
Proof.
  intros H%validate_returned_consumes. by rewrite validate_absent.
Qed.

Lemma cleanupExpiredTokens_lookup now tokenStore k :
  cleanupExpiredTokens now tokenStore !! k =
  match tokenStore !! k with
  | Some stored => if decide (now > expiresAt stored) then None else Some stored
  | None => None
  end.
Proof.
  unfold cleanupExpiredTokens. rewrite map_lookup_filter.
  destruct (tokenStore !! k) as [stored|]; simpl; [|done].
  destruct (decide (now > expiresAt stored)).
  - rewrite option_guard_False; [done | tauto].
  - by rewrite option_guard_True.
Qed.

End CsrfFacts.

(** C4 — Token validation totality and unconditional consumption.  The code
    does not have it: with a token issued for the session key ["k"] (a secret
    of 64 hex digits) and still unexpired, validating the empty string throws
    [ERR_CRYPTO_TIMING_SAFE_EQUAL_LENGTH] instead of returning a boolean, and
    the stored entry is still there afterwards. *)
Theorem validate_throws_on_other_length :
  let issued := Csrf.generateCSRFToken (replicate 32 0) 0 0 (str "k") ∅ in
  let validated := Csrf.validateCSRFToken 1 (str "") (str "k") issued.2 in
  length issued.1 = 64%nat
  ∧ validated.1 = Csrf.Thrown Csrf.ERR_CRYPTO_TIMING_SAFE_EQUAL_LENGTH
  ∧ validated.2 = issued.2
  ∧ is_Some (validated.2 !! str "k").
Proof.
  cbv zeta.
  set (issued := Csrf.generateCSRFToken (replicate 32 0) 0 0 (str "k") ∅).
  assert (Hk : issued.2 !! str "k" =
               Some {| Csrf.token := issued.1; Csrf.createdAt := 0;
                       Csrf.expiresAt := 0 + Csrf.TOKEN_TTL |}) by by vm_compute.
  rewrite (validate_length_mismatch 1 (str "") (str "k") _ _ Hk).
  - split; [by vm_compute|]. split; [done|]. split; [done|].
    eexists. exact Hk.
  - vm_compute. discriminate.
  - vm_compute. discriminate.
Qed.

(** C1 — Token one-time use.  The code does not have it: after a token [s] is
    issued for the session key ["k"], a first validation with a supplied
    secret of another byte length (here the empty string) throws before the
    entry is deleted, and a second validation with [s] then returns [true]. *)
Theorem second_validation_succeeds_after_throw :
  let issued := Csrf.generateCSRFToken (replicate 32 0) 0 0 (str "k") ∅ in
  let first := Csrf.validateCSRFToken 1 (str "") (str "k") issued.2 in
  let second := Csrf.validateCSRFToken 2 issued.1 (str "k") first.2 in
  first.1 = Csrf.Thrown Csrf.ERR_CRYPTO_TIMING_SAFE_EQUAL_LENGTH
  ∧ second.1 = Csrf.Returned true.
Proof. by vm_compute. Qed.

(** C5 — Token store capacity bound.  The code does not have it.  The
    constant [MAX_STORED_TOKENS] is there to prevent memory exhaustion, as
    its comment says, but the cleanup it triggers removes expired entries
    only: 102 tokens issued at the same clock reading for 102 distinct
    session keys are all stored, none of them being expired, so the store
    holds more than [MAX_STORED_TOKENS] entries. *)
Theorem token_store_exceeds_capacity :
  let tokenStore :=
    Csrf.issue_all (replicate 32 0) 0 (Csrf.session_keys 102) ∅ in
  size tokenStore = 102%nat
  ∧ Z.of_nat (size tokenStore) > Csrf.MAX_STORED_TOKENS
  ∧ map_Forall (λ _ stored, ¬ 0 > Csrf.expiresAt stored) tokenStore.
Proof.
  cbv zeta.
  assert (Hsize : size (Csrf.issue_all (replicate 32 0) 0
                          (Csrf.session_keys 102) ∅) = 102%nat)
    by (vm_compute; reflexivity).
  split; [exact Hsize|]. split; [rewrite Hsize; reflexivity|].
  apply (bool_decide_unpack _). by vm_compute.
Qed.

(** X23 — What an issuance does to the store.  The new token is inserted
    first.  If the store then holds more than [MAX_STORED_TOKENS] entries, a
    cleanup pass removes the expired entries and only those.  Nothing else is
    removed: while every stored token is unexpired an issuance for a new
    session key grows the store by one, whatever its size. *)
Theorem issuance_removes_only_expired
    (random : list Z) (now now' : Z) (sessionId : list Z)
    (tokenStore : gmap (list Z) Csrf.StoredToken) :
  let inserted :=
    <[sessionId := {| Csrf.token := Csrf.toString_hex random;
                      Csrf.createdAt := now;
                      Csrf.expiresAt := now + Csrf.TOKEN_TTL |}]> tokenStore in
  let out :=
    (Csrf.generateCSRFToken random now now' sessionId tokenStore).2 in
  (∀ k stored, out !! k = Some stored → inserted !! k = Some stored)
  ∧ (∀ k stored, inserted !! k = Some stored →
       ¬ now' > Csrf.expiresAt stored → out !! k = Some stored)
  ∧ (Z.of_nat (size inserted) > Csrf.MAX_STORED_TOKENS →
     ∀ k stored, out !! k = Some stored → ¬ now' > Csrf.expiresAt stored)
  ∧ ((∀ k stored, tokenStore !! k = Some stored →
        ¬ now' > Csrf.expiresAt stored) →
     ¬ now' > now + Csrf.TOKEN_TTL →
     tokenStore !! sessionId = None →
     size out = S (size tokenStore)).
Proof.
  cbv zeta. unfold Csrf.generateCSRFToken. simpl.
  set (inserted := <[sessionId := _]> tokenStore).
  repeat split.
  - intros k stored. case_decide; [|done].
    rewrite cleanupExpiredTokens_lookup.
    destruct (inserted !! k) as [st|]; [|done]. by case_decide.
  - intros k stored Hk Hlive. case_decide; [|done].
    rewrite cleanupExpiredTokens_lookup, Hk. by rewrite decide_False.
  - intros Hbig k stored. rewrite decide_True by done.
    rewrite cleanupExpiredTokens_lookup.
    destruct (inserted !! k) as [st|]; [|done].
    case_decide; [done|]. by intros [= <-].
  - intros Hall Hnew Hfresh.
    assert (Hid : Csrf.cleanupExpiredTokens now' inserted = inserted).
    { apply map_filter_id. intros k stored. unfold inserted.
      rewrite lookup_insert. case_decide.
      - by intros [= <-].
      - apply Hall. }
    case_decide; rewrite ?Hid; by apply map_size_insert_None.
Qed.

Lemma issuance_removes_only_expired_witness :
  let tokenStore :=
    Csrf.issue_all (replicate 32 0) 0 (Csrf.session_keys 102) ∅ in
  size (Csrf.generateCSRFToken (replicate 32 0) 5 6 (str "k") tokenStore).2
  = 103%nat.
Proof.
  cbv zeta.
  destruct (issuance_removes_only_expired (replicate 32 0) 5 6 (str "k")
    (Csrf.issue_all (replicate 32 0) 0 (Csrf.session_keys 102) ∅))
    as (_ & _ & _ & Hgrow).
  rewrite Hgrow.
  - by vm_compute.
  - apply (bool_decide_unpack (map_Forall (λ _ stored,
             ¬ 6 > Csrf.expiresAt stored) _)). by vm_compute.
  - vm_compute. discriminate.
  - by vm_compute.
Defined.

(* ================================================================== *)
(** * Properties of the sanitization pipeline *)

Section MatcherFacts.
Import RegExp.
Implicit Types (x y : MatchState) (k : MatchState → option MatchState).

Lemma after_refl x : after x x.
Proof. by split. Qed.

Lemma after_trans x y z : after x y → after y z → after x z.
Proof. intros [? ?] [? ?]. split; lia. Qed.

Lemma repeat_matcher_ext m greedy :
  continues_after m →
  ∀ fuel min max, continues_after (λ k, repeat_matcher m greedy k fuel min max).
Proof.
  intros Hm. induction fuel as [|fuel IH]; intros min max k k' x Hk; [done|].
  simpl. rewrite (Hk x (after_refl x)).
  erewrite (Hm _ _ x); [reflexivity|].
  intros y Hy. cbv beta. destruct (_ && _); [done|].
  apply (IH (Nat.pred min) (Nat.pred <$> max) k k' y).
  intros z Hz. apply Hk. by eapply after_trans.
Qed.

Lemma matcher_ext i s r : continues_after (matcher i s r).
Proof.
  induction r as [|c|a IHa b IHb|a IHa b IHb|greedy min max a IHa| | |a IHa];
    intros k k' x Hk; simpl.
  - apply Hk, after_refl.
  - destruct (rest x) as [|ch rest'] eqn:Hx; [done|].
    destruct (cls_matches i s c ch); [|done].
    apply Hk. split; simpl; rewrite ?Hx; simpl; lia.
  - apply IHa. intros y Hy. apply IHb. intros z Hz.
    apply Hk. by eapply after_trans.
  - by rewrite (IHa k k' x Hk), (IHb k k' x Hk).
  - by apply repeat_matcher_ext.
  - rewrite (Hk x (after_refl x)). done.
  - rewrite (Hk x (after_refl x)). done.
  - rewrite (Hk x (after_refl x)). done.
Qed.

(** The fuel that [matcher] gives the RepeatMatcher is enough: more of it
    changes nothing. *)
Lemma repeat_matcher_fuel m greedy k :
  continues_after m →
  ∀ fuel min max x,
    (min + length (rest x) < fuel)%nat →
    repeat_matcher m greedy k (S fuel) min max x =
    repeat_matcher m greedy k fuel min max x.
Proof.
  intros Hm. induction fuel as [|fuel IH]; intros min max x Hfuel; [lia|].
  cbn [repeat_matcher].
  erewrite (Hm _ _ x); [reflexivity|].
  intros y [Hsum Hle]. cbv beta.
  destruct (Nat.eqb_spec min 0) as [->|Hmin]; cbn [andb].
  - destruct (Nat.eqb_spec (endIndex y) (endIndex x)); [done|].
    apply IH. cbn [Nat.pred]. lia.
  - apply IH. lia.
Qed.

Lemma matcher_rep_fuel i s greedy min max a k x (extra : nat) :
  matcher i s (Rep greedy min max a) k x =
  repeat_matcher (matcher i s a) greedy k
    (min + length (rest x) + 1 + extra) min max x.
Proof.
  induction extra as [|extra IH].
  - simpl. by rewrite Nat.add_0_r.
  - rewrite IH. symmetry.
    replace (min + length (rest x) + 1 + S extra)%nat
      with (S (min + length (rest x) + 1 + extra)) by lia.
    apply repeat_matcher_fuel; [apply matcher_ext | lia].
Qed.

End MatcherFacts.

Section ReplaceFacts.
Import RegExp.
Implicit Types (R : RegExp) (s replacement : list Z) (index skip : nat).

(** Where the pattern matches nowhere, [replace] changes nothing. *)
Lemma replace_from_no_match R replacement s : ∀ index,
  search R index s = false → replace_from R replacement index 0 s = s.
Proof.
  induction s as [|c s IH]; intros index; simpl.
  - by destruct (exec_at R index []).
  - destruct (exec_at R index (c :: s)); [done|].
    intros H. by rewrite IH.
Qed.

Lemma replace_no_match R replacement s :
  search R 0 s = false → replace R replacement s = s.
Proof. apply replace_from_no_match. Qed.

(** [replace] only keeps code units of the input or writes the replacement. *)
Lemma replace_from_Forall (P : Z → Prop) R replacement s : ∀ index skip,
  Forall P replacement → Forall P s → Forall P (replace_from R replacement index skip s).
Proof.
  induction s as [|c s IH]; intros index skip Hby Hs; simpl.
  - destruct skip; [|done]. by destruct (exec_at R index []).
  - apply Forall_cons in Hs as [Hc Hs].
    destruct skip as [|n]; [|by apply IH].
    destruct (exec_at R index (c :: s)) as [e|].
    + destruct (e - index)%nat.
      * apply Forall_app. split; [done|]. constructor; [done | by apply IH].
      * apply Forall_app. split; [done | by apply IH].
    + constructor; [done | by apply IH].
Qed.

Lemma replace_Forall (P : Z → Prop) R replacement s :
  Forall P replacement → Forall P s → Forall P (replace R replacement s).
Proof. apply replace_from_Forall. Qed.

(** A pattern that is one character class replaces code unit by code unit. *)
Lemma replace_from_class c replacement s : ∀ index,
  replace_from (Security.g (Atom c)) replacement index 0 s =
  flat_map (λ x, if cls_matches false false c x then replacement else [x]) s.
Proof.
  induction s as [|x s IH]; intros index; [done|].
  cbn [replace_from flat_map].
  unfold exec_at at 1. cbn.
  destruct (cls_matches false false c x); cbn.
  - replace (S index - index)%nat with 1%nat by lia. by rewrite IH.
  - by rewrite IH.
Qed.

Lemma replace_class c replacement s :
  replace (Security.g (Atom c)) replacement s =
  flat_map (λ x, if cls_matches false false c x then replacement else [x]) s.
Proof. apply replace_from_class. Qed.

Lemma flat_map_singletons (f : Z → list Z) s :
  Forall (λ x, f x = [x]) s → flat_map f s = s.
Proof.
  induction 1 as [|x s Hx _ IH]; [done|]. simpl. by rewrite Hx, IH.
Qed.

Lemma flat_map_Forall (P : Z → Prop) (f : Z → list Z) s :
  Forall (λ x, Forall P (f x)) s → Forall P (flat_map f s).
Proof.
  induction 1 as [|x s Hx _ IH]; [done|]. simpl. by apply Forall_app.
Qed.

Lemma trimStart_Forall (P : Z → Prop) s : Forall P s → Forall P (trimStart s).
Proof.
  induction 1 as [|x s Hx Hs IH]; [done|]. simpl.
  destruct (is_space x); [done | by constructor].
Qed.

Lemma trim_Forall (P : Z → Prop) s : Forall P s → Forall P (trim s).
Proof.
  intros H. unfold trim, trimEnd.
  apply Forall_rev, trimStart_Forall, Forall_rev. by apply trimStart_Forall.
Qed.

Lemma starts_with_spec needle s :
  starts_with needle s = true ↔ ∃ after, s = needle ++ after.
Proof.
  revert s. induction needle as [|a needle IH]; intros s; simpl.
  - split; [by exists s | done].
  - destruct s as [|b s].
    + split; [done | by intros [after H]].
    + rewrite andb_true_iff, Z.eqb_eq, IH. split.
      * intros [-> [after ->]]. by exists after.
      * intros [after [= -> ->]]. split; [done | by exists after].
Qed.

Lemma includes_spec needle s :
  includes needle s = true ↔ substring_of needle s.
Proof.
  unfold substring_of. induction s as [|x s IH]; simpl.
  - rewrite orb_false_r, starts_with_spec. split.
    + intros [after H]. by exists [], after.
    + intros (before & after & H). exists after.
      destruct before; [done | discriminate].
  - rewrite orb_true_iff, starts_with_spec, IH. split.
    + intros [[after ->]|(before & after & ->)].
      * by exists [], after.
      * by exists (x :: before), after.
    + intros (before & after & H). destruct before as [|y before].
      * left. by exists after.
      * right. injection H as -> ->. by exists before, after.
Qed.

Lemma includes_false needle s :
  includes needle s = false ↔ ¬ substring_of needle s.
Proof.
  rewrite <- includes_spec. by destruct (includes needle s).
Qed.

End ReplaceFacts.

Section SanitizeFacts.
Import RegExp Security.
Implicit Types (s input : list Z) (x : Z).

Lemma replace_char c replacement s :
  replace (g (Atom (Chars [c]))) replacement s =
  flat_map (λ x, if x =? c then replacement else [x]) s.
Proof.
  rewrite replace_class. apply flat_map_ext. intros x. simpl.
  by rewrite orb_false_r, Z.eqb_sym.
Qed.

Lemma flat_map_one (f : Z → list Z) x : flat_map f [x] = f x.
Proof. simpl. apply app_nil_r. Qed.

Lemma encode_entities_app s1 s2 :
  encode_entities (s1 ++ s2) = encode_entities s1 ++ encode_entities s2.
Proof.
  unfold encode_entities, entity_encoding. cbn [fold_left].
  rewrite !replace_char. by rewrite !flat_map_app.
Qed.

Lemma encode_entities_one x : encode_entities [x] = entity_of x.
Proof.
  unfold encode_entities, entity_encoding, entity_of. cbn [fold_left].
  rewrite !replace_char.
  destruct (Z.eqb_spec x 38); [subst x; by vm_compute|].
  destruct (Z.eqb_spec x 60); [subst x; by vm_compute|].
  destruct (Z.eqb_spec x 62); [subst x; by vm_compute|].
  destruct (Z.eqb_spec x 34); [subst x; by vm_compute|].
  destruct (Z.eqb_spec x 39); [subst x; by vm_compute|].
  destruct (Z.eqb_spec x 47); [subst x; by vm_compute|].
  repeat (rewrite flat_map_one; cbv beta;
          rewrite (proj2 (Z.eqb_neq x _)) by done).
  done.
Qed.

Lemma encode_entities_flat_map s : encode_entities s = flat_map entity_of s.
Proof.
  induction s as [|x s IH]; [done|].
  change (x :: s) with ([x] ++ s).
  by rewrite encode_entities_app, encode_entities_one, IH.
Qed.

Lemma entity_of_clean x :
  is_control x = false → Forall (λ y, clean y = true) (entity_of x).
Proof.
  intros Hc. unfold entity_of.
  destruct (Z.eqb_spec x 38); [by repeat constructor|].
  destruct (Z.eqb_spec x 60); [by repeat constructor|].
  destruct (Z.eqb_spec x 62); [by repeat constructor|].
  destruct (Z.eqb_spec x 34); [by repeat constructor|].
  destruct (Z.eqb_spec x 39); [by repeat constructor|].
  destruct (Z.eqb_spec x 47); [by repeat constructor|].
  constructor; [|done]. unfold clean, is_markup. rewrite Hc.
  by rewrite !(proj2 (Z.eqb_neq x _)) by done.
Qed.

Lemma entity_of_plain x :
  clean x = true → x ≠ 38 → entity_of x = [x].
Proof.
  unfold clean, is_markup, entity_of. intros Hc Hamp.
  rewrite (proj2 (Z.eqb_neq x 38)) by done.
  destruct (x =? 60), (x =? 62), (x =? 34), (x =? 39), (x =? 47);
    try done; by rewrite ?andb_false_r in Hc.
Qed.

Lemma strip_control_clean s :
  Forall (λ x, is_control x = false) (replace control_characters [] s).
Proof.
  unfold control_characters. rewrite replace_class.
  apply flat_map_Forall, Forall_forall. intros x _.
  fold (is_control x). destruct (is_control x) eqn:H; by repeat constructor.
Qed.

Lemma strip_control_id s :
  Forall (λ x, is_control x = false) s → replace control_characters [] s = s.
Proof.
  intros H. unfold control_characters. rewrite replace_class.
  apply flat_map_singletons. eapply Forall_impl; [exact H|].
  intros x Hx. unfold is_control in Hx. cbv beta. by rewrite Hx.
Qed.

Lemma strip_patterns_Forall (P : Z → Prop) (patterns : list RegExp) s :
  Forall P s →
  Forall P (fold_left (λ acc pattern, replace pattern [] acc) patterns s).
Proof.
  revert s. induction patterns as [|R patterns IH]; intros s H; [done|].
  simpl. apply IH. by apply replace_Forall.
Qed.

Lemma strip_patterns_id (patterns : list RegExp) s :
  forallb (λ pattern, negb (search pattern 0 s)) patterns = true →
  fold_left (λ acc pattern, replace pattern [] acc) patterns s = s.
Proof.
  induction patterns as [|R patterns IH]; [done|]. simpl.
  intros [HR H]%andb_true_iff. apply negb_true_iff in HR.
  rewrite replace_no_match by done. by apply IH.
Qed.

(** The residual-tag pattern needs a [<] to start a match. *)
Lemma any_tag_needs_lt s : ∀ index,
  Forall (λ x, x ≠ 60) s → search any_tag index s = false.
Proof.
  induction s as [|x s IH]; intros index H; [done|].
  apply Forall_cons in H as [Hx H].
  cbn [search]. rewrite IH by done.
  assert (Hlt : lit "<" = Cat (Atom (Chars [60])) Empty) by by vm_compute.
  unfold exec_at, any_tag, g, cat.
  cbn [foldr pattern ignoreCase dotAll matcher]. rewrite Hlt.
  cbn [matcher rest cls_matches existsb].
  by rewrite (proj2 (Z.eqb_neq 60 x)) by done.
Qed.

Lemma sanitizeInput_unfold input :
  sanitizeInput input =
  take 2000 (trim (replace any_tag []
    (encode_entities
       (fold_left (λ acc pattern, replace pattern [] acc) DANGEROUS_PATTERNS
          (replace control_characters [] input))))).
Proof. destruct input; [by vm_compute | done]. Qed.

(** Whatever the input, the sanitized value holds no control character and
    none of [<], [>], the double quote, the apostrophe and [/]. *)
Lemma sanitizeInput_clean input :
  Forall (λ x, clean x = true) (sanitizeInput input).
Proof.
  rewrite sanitizeInput_unfold.
  apply Forall_take, trim_Forall, replace_Forall; [done|].
  rewrite encode_entities_flat_map.
  apply flat_map_Forall.
  eapply Forall_impl; [|intros x; apply entity_of_clean].
  apply strip_patterns_Forall, strip_control_clean.
Qed.

Lemma sanitizeInput_length input : (length (sanitizeInput input) <= 2000)%nat.
Proof. rewrite sanitizeInput_unfold, length_take. lia. Qed.

(** A clean value without [&], without a dangerous pattern, and without
    white space at its ends, that fits in 2000 code units, is sanitized to
    itself. *)
Lemma sanitizeInput_fixed s :
  Forall (λ x, clean x = true) s →
  38 ∉ s →
  no_dangerous_pattern s = true →
  trim s = s →
  (length s <= 2000)%nat →
  sanitizeInput s = s.
Proof.
  intros Hclean Hamp Hpat Htrim Hlen.
  rewrite sanitizeInput_unfold.
  rewrite strip_control_id.
  2:{ eapply Forall_impl; [exact Hclean|]. intros x.
      unfold clean. by intros [->%negb_true_iff _]%andb_true_iff. }
  rewrite strip_patterns_id by exact Hpat.
  rewrite encode_entities_flat_map, flat_map_singletons.
  2:{ apply Forall_forall. intros x Hx. apply entity_of_plain.
      - by eapply (proj1 (Forall_forall _ _) Hclean).
      - intros ->. by apply Hamp. }
  rewrite replace_no_match.
  2:{ apply any_tag_needs_lt. eapply Forall_impl; [exact Hclean|].
      intros x Hx ->. by vm_compute in Hx. }
  rewrite Htrim. by apply take_ge.
Qed.

End SanitizeFacts.

(** C2, as the claim states it, fails: a second run encodes the [&] of the
    entity that the first run wrote, and the apostrophe entity [&#x27;] that
    the first run wrote is a hex entity, which the second run strips. *)
Lemma sanitize_twice_differs :
  Security.sanitizeInput (Security.sanitizeInput (str "&"))
    ≠ Security.sanitizeInput (str "&")
  ∧ Security.sanitizeInput (str "&") = str "&amp;"
  ∧ Security.sanitizeInput (Security.sanitizeInput (str "&")) = str "&amp;amp;"
  ∧ Security.sanitizeInput (str "it's") = str "it&#x27;s"
  ∧ Security.sanitizeInput (Security.sanitizeInput (str "it's")) = str "its".
Proof. repeat split; by vm_compute. Qed.

(** Two more ways in which a second run changes the value: stripping one
    pattern can assemble an earlier one, and the cut at 2000 code units can
    leave white space at the end. *)
Example sanitize_assembles_pattern :
  Security.sanitizeInput (str "java<input>script:") = str "javascript:"
  ∧ Security.sanitizeInput (str "javascript:") = [].
Proof. split; by vm_compute. Qed.

Example sanitize_cut_leaves_space :
  let once := Security.sanitizeInput (replicate 1999 97 ++ str " b") in
  once = replicate 1999 97 ++ str " "
  ∧ Security.sanitizeInput once = replicate 1999 97.
Proof. split; by vm_compute. Qed.

(** C2, amended — a second run of the pipeline changes nothing exactly on the
    values that need no further cleaning: if the sanitized value holds no
    [&], no dangerous pattern and no white space at its ends, sanitizing it
    again returns it unchanged. *)
Theorem sanitize_again_unchanged (input : list Z) :
  let once := Security.sanitizeInput input in
  38 ∉ once →
  Security.no_dangerous_pattern once = true →
  RegExp.trim once = once →
  Security.sanitizeInput once = once.
Proof.
  intros once Hamp Hpat Htrim.
  apply sanitizeInput_fixed; try done.
  - apply sanitizeInput_clean.
  - apply sanitizeInput_length.
Qed.

Lemma sanitize_again_unchanged_witness :
  Security.sanitizeInput (str "  Hello, world!  ") = str "Hello, world!"
  ∧ Security.sanitizeInput (Security.sanitizeInput (str "  Hello, world!  "))
    = Security.sanitizeInput (str "  Hello, world!  ").
Proof.
  split; [by vm_compute|].
  apply (sanitize_again_unchanged (str "  Hello, world!  ")).
  - apply (bool_decide_unpack _). by vm_compute.
  - by vm_compute.
  - by vm_compute.
Defined.

(** C6 — Sanitization removes injection vectors: the sanitized value of
    ["<script>alert(1)</script>Hello"] is ["Hello"]; it contains no
    ["<script>"] and neither [<] nor [>]. *)
Theorem sanitize_removes_script :
  let out := Security.sanitizeInput (str "<script>alert(1)</script>Hello") in
  out = str "Hello"
  ∧ ¬ RegExp.substring_of (str "<script>") out
  ∧ (60 ∉ out) ∧ (62 ∉ out).
Proof.
  cbv zeta.
  assert (H : Security.sanitizeInput (str "<script>alert(1)</script>Hello")
              = str "Hello") by by vm_compute.
  rewrite H. split; [done|].
  split; [apply includes_false; by vm_compute|].
  split; apply (bool_decide_unpack _); by vm_compute.
Qed.

(* ================================================================== *)
(** * Properties of the email checks *)

Section EmailFacts.
Import RegExp Security Validations.

Lemma substring_of_one c (s : list Z) : substring_of [c] s ↔ c ∈ s.
Proof.
  unfold substring_of. split.
  - intros (before & after & ->). set_solver.
  - intros (before & after & ->)%list_elem_of_split. by exists before, after.
Qed.

Lemma validateEmail_spec email :
  validateEmail email = true ↔
  test emailRegex email = true
  ∧ (length email <= 255)%nat
  ∧ (43 ∉ email)
  ∧ ¬ substring_of (str "..") email.
Proof.
  unfold validateEmail, MAX_EMAIL_LENGTH.
  rewrite <- substring_of_one, <- !includes_false.
  change [43] with (str "+").
  destruct (test emailRegex email); simpl; [|by intuition].
  destruct (Nat.ltb_spec 255 (length email)); [intuition; lia|].
  destruct (includes (str "+") email), (includes (str "..") email);
    simpl; by intuition.
Qed.

Lemma email_accepted_spec is_email email :
  email_accepted is_email email = true ↔
  is_email email = true ∧ (5 <= length email <= 255)%nat.
Proof.
  unfold email_accepted, contactFormSchema_email. rewrite bool_decide_eq_true.
  destruct (is_email email);
    destruct (Nat.ltb_spec (length email) 5);
    destruct (Nat.ltb_spec 255 (length email)); simpl;
    split; try done; try lia; intros [? ?]; try done; lia.
Qed.

End EmailFacts.

(* ================================================================== *)
(** * Further properties of the request throttle *)

Section ThrottleBudget.
Import RateLimit.
Variable cfg : RateLimitConfig.
Variable N : Z.
Hypothesis limit_integer : (maxRequests cfg == inject_Z N)%Q.
Hypothesis limit_pos : 1 <= N.
Hypothesis window_pos : (0 < window cfg)%Q.
Implicit Types (store : gmap (list Z) RateLimitEntry) (now t : Z) (r : Q)
  (identifier watched : list Z) (e : RateLimitEntry).





End ThrottleBudget.



(** X1, a limit that is not an integer.  With [maxRequests = 2.5] three
    calls of one window are allowed: the bound is the limit rounded up. *)
Lemma fractional_limit_grants_three :
  let cfg := RateLimit.new_RateLimiter (Some 1000%Q) (Some 2.5%Q) in
  let calls := [RateLimit.Check 0 (str "a"); RateLimit.Check 1 (str "a");
                RateLimit.Check 2 (str "a"); RateLimit.Check 3 (str "a")] in
  RateLimit.allowed_in 1000 (RateLimit.run cfg (str "a") calls ∅).1 = 3%nat.
Proof. by vm_compute. Qed.



(** X2, a negative window.  The constructor keeps a negative window; the
    reset time of a fresh entry is then before the call that made it. *)
Lemma negative_window_resets_in_the_past :
  let cfg := RateLimit.new_RateLimiter (Some (-5)%Q) None in
  (RateLimit.resetAt (RateLimit.check cfg 100 (str "a") ∅).1 < inject_Z 100)%Q.
Proof. by vm_compute. Qed.



(** X4 — [getStatus] after [check].  On a limiter whose [maxRequests] is an
    integer [N >= 1] and whose window is not negative, right after a call of
    [check] for an identifier, [getStatus] for it is not [null] and reports
    the [remaining] and the reset time that the call returned; after a
    refused call its count is at least [maxRequests]. *)
Theorem status_agrees_with_check
    (cfg : RateLimit.RateLimitConfig) (N : Z) (now : Z) (identifier : list Z)
    (store : gmap (list Z) RateLimit.RateLimitEntry) :
  (RateLimit.maxRequests cfg == inject_Z N)%Q →
  1 <= N →
  (0 <= RateLimit.window cfg)%Q →
  let res := (RateLimit.check cfg now identifier store).1 in
  let store' := (RateLimit.check cfg now identifier store).2 in
  ∃ st, RateLimit.getStatus cfg identifier store' = Some st
        ∧ (RateLimit.status_remaining st == RateLimit.remaining res)%Q
        ∧ RateLimit.status_resetTime st = RateLimit.resetAt res
        ∧ (RateLimit.allowed res = false →
           (inject_Z (RateLimit.status_count st)
            >= RateLimit.maxRequests cfg)%Q).
Proof.
  intros HN Hpos HW. cbv zeta. unfold RateLimit.getStatus.
  assert (Hone : (1 <= RateLimit.maxRequests cfg)%Q)
    by (apply (within_limit cfg N HN 1); lia).
  assert (Hmax : ∀ x : Q, (0 <= x)%Q → (Math_max 0 x == x)%Q).
  { intros x Hx. unfold Math_max. case_decide; lra. }
  assert (Hopen : ∃ st,
    match (RateLimit.openWindow cfg now identifier store).2 !! identifier with
    | Some entry =>
      Some {| RateLimit.status_count := RateLimit.count entry;
              RateLimit.status_remaining :=
                Math_max 0 (RateLimit.maxRequests cfg
                            - inject_Z (RateLimit.count entry));
              RateLimit.status_resetTime := RateLimit.resetTime entry |}
    | None => None
    end = Some st
    ∧ (RateLimit.status_remaining st
       == RateLimit.remaining (RateLimit.openWindow cfg now identifier store).1)%Q
    ∧ RateLimit.status_resetTime st
      = RateLimit.resetAt (RateLimit.openWindow cfg now identifier store).1
    ∧ (RateLimit.allowed (RateLimit.openWindow cfg now identifier store).1
       = false →
       (inject_Z (RateLimit.status_count st) >= RateLimit.maxRequests cfg)%Q)).
  { rewrite openWindow_lookup by done. eexists. split; [done|].
    simpl. repeat split; [|done]. apply Hmax. lra. }
  unfold RateLimit.check.
  destruct (store !! identifier) as [e|] eqn:He; [|done].
  case_decide; [done|]. case_decide as Hfull; simpl.
  - rewrite He. eexists. split; [done|]. simpl. repeat split; [|done].
    unfold Math_max. case_decide; lra.
  - rewrite lookup_insert_eq. eexists. split; [done|]. simpl.
    repeat split; [|done]. apply Hmax.
    apply Qnot_le_lt, (below_limit cfg N HN) in Hfull.
    assert (H2 : (inject_Z (RateLimit.count e + 1)
                  <= RateLimit.maxRequests cfg)%Q)
      by (apply (within_limit cfg N HN); lia).
    lra.
Qed.

Lemma status_agrees_with_check_witness :
  let cfg := RateLimit.contactFormLimiter in
  ∃ st, RateLimit.getStatus cfg (str "a")
          (RateLimit.check cfg 0 (str "a") ∅).2 = Some st
        ∧ (RateLimit.status_remaining st == 2)%Q.
Proof.
  destruct (status_agrees_with_check RateLimit.contactFormLimiter 3 0
              (str "a") ∅) as (st & Hst & Hrem & _).
  - reflexivity.
  - lia.
  - vm_compute. discriminate.
  - exists st. split; [exact Hst | by rewrite Hrem].
Defined.

(** X4, a limit that is not an integer.  With [maxRequests = 2.5] the third
    call of a window returns [remaining = -0.5], and [getStatus], which cuts
    at zero, reports 0. *)
Lemma fractional_limit_status_differs :
  let cfg := RateLimit.new_RateLimiter (Some 1000%Q) (Some 2.5%Q) in
  let store := (RateLimit.checks cfg (str "a") [0; 1] ∅).2 in
  let third := RateLimit.check cfg 2 (str "a") store in
  (RateLimit.remaining third.1 == -0.5)%Q
  ∧ ∃ st, RateLimit.getStatus cfg (str "a") third.2 = Some st
          ∧ (RateLimit.status_remaining st == 0)%Q.
Proof. cbv zeta. split; [by vm_compute|]. eexists. by vm_compute. Qed.



(* ================================================================== *)
(** * Further properties of the anti-forgery token manager *)

Section TokenFacts.
Import Csrf.
Implicit Types (tokenStore : gmap (list Z) StoredToken) (now t : Z)
  (sessionId secret random : list Z) (stored : StoredToken).

Lemma hex_digit_lower n : 0 <= n < 16 → is_lower_hex (hex_digit n) = true.
Proof.
  intros Hn. unfold is_lower_hex, hex_digit.
  destruct (Z.ltb_spec n 10).
  - apply orb_true_iff. left. apply andb_true_iff. split; lia.
  - apply orb_true_iff. right. apply andb_true_iff. split; lia.
Qed.

Lemma hex_digit_inj n m :
  0 <= n < 16 → 0 <= m < 16 → hex_digit n = hex_digit m → n = m.
Proof.
  unfold hex_digit. intros Hn Hm.
  destruct (Z.ltb_spec n 10), (Z.ltb_spec m 10); lia.
Qed.

Lemma toString_hex_length random :
  length (toString_hex random) = (2 * length random)%nat.
Proof.
  unfold toString_hex. induction random as [|b random IH]; [done|].
  simpl. rewrite IH. lia.
Qed.

Lemma toString_hex_lower random :
  valid_bytes random →
  Forall (λ c, is_lower_hex c = true) (toString_hex random).
Proof.
  unfold toString_hex. induction 1 as [|b random Hb _ IH]; [done|].
  simpl. constructor; [|constructor; [|done]]; apply hex_digit_lower.
  - split; [apply Z.div_pos; lia | apply Z.div_lt_upper_bound; lia].
  - apply Z.mod_pos_bound. lia.
Qed.

Lemma toString_hex_inj random1 random2 :
  valid_bytes random1 → valid_bytes random2 →
  toString_hex random1 = toString_hex random2 → random1 = random2.
Proof.
  unfold toString_hex. intros H1. revert random2.
  induction H1 as [|b1 random1 Hb1 _ IH]; intros random2 H2 Heq.
  - destruct random2; [done | discriminate].
  - destruct H2 as [|b2 random2 Hb2 H2]; [discriminate|].
    simpl in Heq. injection Heq as Hhi Hlo Hrest.
    apply hex_digit_inj in Hhi, Hlo.
    + f_equal; [|by apply IH].
      rewrite (Z.div_mod b1 16), (Z.div_mod b2 16) by lia. by rewrite Hhi, Hlo.
    + apply Z.mod_pos_bound. lia.
    + apply Z.mod_pos_bound. lia.
    + split; [apply Z.div_pos; lia | apply Z.div_lt_upper_bound; lia].
    + split; [apply Z.div_pos; lia | apply Z.div_lt_upper_bound; lia].
Qed.

(** A string of ASCII code units is its own UTF-8 encoding. *)
Lemma Buffer_from_ascii (s : list Z) :
  Forall (λ c, 0 <= c < 128) s → Buffer_from s = s.
Proof.
  induction 1 as [|c s Hc _ IH]; [done|].
  cbn [Buffer_from]. unfold is_high_surrogate, is_low_surrogate, utf8_code_point.
  rewrite (proj2 (Z.leb_gt 0xD800 c)) by lia.
  rewrite (proj2 (Z.leb_gt 0xDC00 c)) by lia.
  rewrite (proj2 (Z.ltb_lt c 0x80)) by lia.
  simpl. by rewrite IH.
Qed.

Lemma Buffer_from_hex random :
  valid_bytes random → Buffer_from (toString_hex random) = toString_hex random.
Proof.
  intros H. apply Buffer_from_ascii.
  eapply Forall_impl; [by apply toString_hex_lower|].
  intros c. unfold is_lower_hex. intros Hc.
  apply orb_true_iff in Hc as [Hc|Hc]; apply andb_true_iff in Hc as [? ?]; lia.
Qed.

(** The entry that an issuance leaves for its session key, when the cleanup
    pass does not find it expired already. *)
Lemma generateCSRFToken_lookup random now now' sessionId tokenStore :
  ¬ now' > now + TOKEN_TTL →
  (generateCSRFToken random now now' sessionId tokenStore).2 !! sessionId =
  Some {| token := toString_hex random; createdAt := now;
          expiresAt := now + TOKEN_TTL |}.
Proof.
  intros Hlive. unfold generateCSRFToken. simpl. case_decide.
  - rewrite cleanupExpiredTokens_lookup, lookup_insert_eq. simpl.
    by rewrite decide_False.
  - apply lookup_insert_eq.
Qed.

Lemma generateCSRFToken_lookup_cases random now now' sessionId tokenStore :
  (generateCSRFToken random now now' sessionId tokenStore).2 !! sessionId =
    Some {| token := toString_hex random; createdAt := now;
            expiresAt := now + TOKEN_TTL |}
  ∨ (generateCSRFToken random now now' sessionId tokenStore).2 !! sessionId
    = None.
Proof.
  unfold generateCSRFToken. simpl. case_decide.
  - rewrite cleanupExpiredTokens_lookup, lookup_insert_eq. simpl.
    case_decide; [by right | by left].
  - left. apply lookup_insert_eq.
Qed.

Lemma validate_other_key t secret sessionId tokenStore k :
  k ≠ sessionId →
  (validateCSRFToken t secret sessionId tokenStore).2 !! k = tokenStore !! k.
Proof.
  intros Hk. unfold validateCSRFToken.
  destruct (tokenStore !! sessionId) as [stored|]; [|done].
  case_decide; simpl; [by rewrite lookup_delete_ne|].
  destruct (timingSafeEqual _ _); simpl; [by rewrite lookup_delete_ne | done].
Qed.

End TokenFacts.

(** X6 — Issue, then validate.  A token validated with the secret that the
    issuance returned, for the same session key and no later than its expiry
    time, is accepted, and the entry is consumed by that validation. *)
Theorem issued_token_validates_once
    (random : list Z) (now now' t : Z) (sessionId : list Z)
    (tokenStore : gmap (list Z) Csrf.StoredToken) :
  ¬ now' > now + Csrf.TOKEN_TTL →
  ¬ t > now + Csrf.TOKEN_TTL →
  let issued := Csrf.generateCSRFToken random now now' sessionId tokenStore in
  Csrf.validateCSRFToken t issued.1 sessionId issued.2
  = (Csrf.Returned true, delete sessionId issued.2).
Proof.
  intros Hclean Hlive. cbv zeta.
  pose proof (generateCSRFToken_lookup random now now' sessionId tokenStore
                Hclean) as Hk.
  rewrite (validate_same_length t _ sessionId _ _ Hk); [|done|done].
  by rewrite bool_decide_eq_true_2.
Qed.

Lemma issued_token_validates_once_witness :
  let issued := Csrf.generateCSRFToken (replicate 32 7) 0 0 (str "k") ∅ in
  (Csrf.validateCSRFToken 3600000 issued.1 (str "k") issued.2).1
  = Csrf.Returned true.
Proof.
  cbv zeta.
  rewrite (issued_token_validates_once (replicate 32 7) 0 0 3600000 (str "k") ∅).
  - reflexivity.
  - vm_compute. discriminate.
  - vm_compute. discriminate.
Defined.

(** X7 — Token expiry.  Once the clock is past the expiry time of an issued
    token (one hour after the issuance), validating for its session key
    returns [false] whatever secret is supplied, the right one included, and
    leaves no entry for the key. *)
Theorem expired_token_is_refused
    (random : list Z) (now now' t : Z) (sessionId secret : list Z)
    (tokenStore : gmap (list Z) Csrf.StoredToken) :
  t > now + Csrf.TOKEN_TTL →
  let issued := Csrf.generateCSRFToken random now now' sessionId tokenStore in
  let validated := Csrf.validateCSRFToken t secret sessionId issued.2 in
  validated.1 = Csrf.Returned false ∧ validated.2 !! sessionId = None.
Proof.
  intros Hexp. cbv zeta.
  destruct (generateCSRFToken_lookup_cases random now now' sessionId tokenStore)
    as [Hk|Hk].
  - rewrite (validate_expired t secret sessionId _ _ Hk) by done.
    split; [done | apply lookup_delete_eq].
  - by rewrite validate_absent.
Qed.

Lemma expired_token_is_refused_witness :
  let issued := Csrf.generateCSRFToken (replicate 32 7) 0 0 (str "k") ∅ in
  (Csrf.validateCSRFToken 3600001 issued.1 (str "k") issued.2).1
  = Csrf.Returned false.
Proof.
  apply (expired_token_is_refused (replicate 32 7) 0 0 3600001 (str "k")).
  vm_compute. reflexivity.
Defined.

(** X8 — Token overwrite.  A second issuance for a session key replaces the
    first: when the two issuances drew different random bytes (of the same
    number), validating with the first secret returns [false]. *)
Theorem second_issuance_replaces_first
    (random1 random2 : list Z) (now1 now1' now2 now2' t : Z)
    (sessionId : list Z) (tokenStore : gmap (list Z) Csrf.StoredToken) :
  Csrf.valid_bytes random1 → Csrf.valid_bytes random2 →
  length random1 = length random2 →
  random1 ≠ random2 →
  ¬ now2' > now2 + Csrf.TOKEN_TTL →
  ¬ t > now2 + Csrf.TOKEN_TTL →
  let first :=
    Csrf.generateCSRFToken random1 now1 now1' sessionId tokenStore in
  let second := Csrf.generateCSRFToken random2 now2 now2' sessionId first.2 in
  (Csrf.validateCSRFToken t first.1 sessionId second.2).1
  = Csrf.Returned false.
Proof.
  intros H1 H2 Hlen Hne Hclean Hlive. cbv zeta.
  pose proof (generateCSRFToken_lookup random2 now2 now2' sessionId
    (Csrf.generateCSRFToken random1 now1 now1' sessionId tokenStore).2 Hclean)
    as Hk.
  rewrite (validate_same_length t _ sessionId _ _ Hk); [|done|].
  - simpl. rewrite !Buffer_from_hex by done.
    rewrite bool_decide_eq_false_2; [done|].
    intros Heq. apply Hne. symmetry. by apply toString_hex_inj.
  - simpl. rewrite !Buffer_from_hex by done.
    rewrite !toString_hex_length. lia.
Qed.

Lemma second_issuance_replaces_first_witness :
  let first := Csrf.generateCSRFToken (replicate 32 1) 0 0 (str "k") ∅ in
  let second := Csrf.generateCSRFToken (replicate 32 2) 5 5 (str "k") first.2 in
  (Csrf.validateCSRFToken 6 first.1 (str "k") second.2).1
  = Csrf.Returned false.
Proof.
  apply (second_issuance_replaces_first (replicate 32 1) (replicate 32 2)
           0 0 5 5 6 (str "k") ∅).
  - repeat constructor; lia.
  - repeat constructor; lia.
  - reflexivity.
  - discriminate.
  - vm_compute. discriminate.
  - vm_compute. discriminate.
Defined.

(** X9 — The form of a token.  From [n] random bytes the hexadecimal encoding
    makes [2 n] code units, all of them digits [0-9a-f], and different bytes
    give different strings: a token from 32 bytes has 64 hex digits and is as
    unpredictable as the bytes. *)
Theorem token_is_hex_of_its_bytes (random random' : list Z) :
  Csrf.valid_bytes random → Csrf.valid_bytes random' →
  length (Csrf.toString_hex random) = (2 * length random)%nat
  ∧ Forall (λ c, Csrf.is_lower_hex c = true) (Csrf.toString_hex random)
  ∧ (Csrf.toString_hex random = Csrf.toString_hex random' → random = random').
Proof.
  intros H H'. split; [apply toString_hex_length|].
  split; [by apply toString_hex_lower | by apply toString_hex_inj].
Qed.

Lemma token_is_hex_of_its_bytes_witness :
  length (Csrf.generateCSRFToken (replicate 32 171) 0 0 (str "k") ∅).1 = 64%nat.
Proof.
  destruct (token_is_hex_of_its_bytes (replicate 32 171) (replicate 32 171))
    as (Hlen & _ & _).
  - repeat constructor; lia.
  - repeat constructor; lia.
  - exact Hlen.
Defined.

(** X10 — A wrong guess burns the token.  Validating with a secret that has
    the byte length of the stored one but other bytes returns [false] and
    consumes the entry: a following validation with the right secret returns
    [false] as well.  The entries of the other session keys are not
    touched. *)
Theorem wrong_secret_consumes_token
    (t t' : Z) (secret sessionId : list Z) (stored : Csrf.StoredToken)
    (tokenStore : gmap (list Z) Csrf.StoredToken) :
  tokenStore !! sessionId = Some stored →
  ¬ t > Csrf.expiresAt stored →
  length (Csrf.Buffer_from (Csrf.token stored))
    = length (Csrf.Buffer_from secret) →
  Csrf.Buffer_from (Csrf.token stored) ≠ Csrf.Buffer_from secret →
  let first := Csrf.validateCSRFToken t secret sessionId tokenStore in
  first.1 = Csrf.Returned false
  ∧ (Csrf.validateCSRFToken t' (Csrf.token stored) sessionId first.2).1
    = Csrf.Returned false
  ∧ (∀ k, k ≠ sessionId → first.2 !! k = tokenStore !! k).
Proof.
  intros Hk Hlive Hlen Hne. cbv zeta.
  split; [|split].
  - rewrite (validate_same_length t secret sessionId _ _ Hk) by done.
    simpl. by rewrite bool_decide_eq_false_2.
  - rewrite (validate_same_length t secret sessionId _ _ Hk) by done.
    simpl. rewrite validate_absent; [done | apply lookup_delete_eq].
  - intros k Hkne. by apply validate_other_key.
Qed.

Lemma wrong_secret_consumes_token_witness :
  let issued := Csrf.generateCSRFToken (replicate 32 1) 0 0 (str "k") ∅ in
  let first :=
    Csrf.validateCSRFToken 1 (Csrf.toString_hex (replicate 32 2)) (str "k")
      issued.2 in
  (Csrf.validateCSRFToken 2 issued.1 (str "k") first.2).1
  = Csrf.Returned false.
Proof.
  cbv zeta.
  destruct (wrong_secret_consumes_token 1 2
              (Csrf.toString_hex (replicate 32 2)) (str "k")
              {| Csrf.token := Csrf.toString_hex (replicate 32 1);
                 Csrf.createdAt := 0; Csrf.expiresAt := 0 + Csrf.TOKEN_TTL |}
              (Csrf.generateCSRFToken (replicate 32 1) 0 0 (str "k") ∅).2)
    as (_ & H & _).
  - by vm_compute.
  - vm_compute. discriminate.
  - by vm_compute.
  - vm_compute. discriminate.
  - exact H.
Defined.

(* ================================================================== *)
(** * Further properties of the security utilities *)

Section TrimFacts.
Import RegExp.
Implicit Types (s : list Z).

Lemma trimStart_split s :
  ∃ blanks, s = blanks ++ trimStart s ∧ Forall (λ x, is_space x = true) blanks.
Proof.
  induction s as [|x s (blanks & IH & Hb)]; [by exists []|]. simpl.
  destruct (is_space x) eqn:Hx.
  - exists (x :: blanks). split; [by rewrite IH at 1 | by constructor].
  - by exists [].
Qed.

Lemma trimEnd_split s :
  ∃ blanks, s = trimEnd s ++ blanks ∧ Forall (λ x, is_space x = true) blanks.
Proof.
  destruct (trimStart_split (rev s)) as (blanks & Hs & Hb).
  exists (rev blanks). split; [|by apply Forall_rev].
  unfold trimEnd. rewrite <- rev_app_distr, <- Hs. by rewrite rev_involutive.
Qed.

Lemma trimStart_starts_clean s : starts_clean (trimStart s).
Proof.
  induction s as [|x s IH]; [done|]. simpl.
  destruct (is_space x) eqn:Hx; [done | exact Hx].
Qed.

Lemma trimEnd_starts_clean s : starts_clean s → starts_clean (trimEnd s).
Proof.
  destruct (trimEnd_split s) as (blanks & Hs & _).
  destruct (trimEnd s) as [|y u]; [done|].
  rewrite Hs. by simpl.
Qed.

Lemma take_starts_clean n s : starts_clean s → starts_clean (take n s).
Proof. destruct s, n; done. Qed.

Lemma starts_clean_trimStart s : starts_clean s → trimStart s = s.
Proof. destruct s as [|x s]; [done|]. simpl. by intros ->. Qed.

Lemma trimStart_all_blank s :
  Forall (λ x, is_space x = true) s → trimStart s = [].
Proof. induction 1 as [|x s Hx _ IH]; [done|]. simpl. by rewrite Hx. Qed.

End TrimFacts.

(** X11 — What [sanitizeInput] returns, for every input: at most 2000 code
    units, none of them in the class of control characters that the pipeline
    strips (U+0000 to U+0008, U+000B, U+000C, U+000E to U+001F and U+007F;
    tab, line feed, carriage return and U+0080 to U+009F are not in it and
    can remain), none of them [<], [>], a double quote, an apostrophe or
    [/], and no white space at the start. *)
Theorem sanitized_value_shape (input : list Z) :
  let out := Security.sanitizeInput input in
  (length out <= 2000)%nat
  ∧ Forall (λ x, Security.is_control x = false
                 ∧ x ≠ 60 ∧ x ≠ 62 ∧ x ≠ 34 ∧ x ≠ 39 ∧ x ≠ 47) out
  ∧ RegExp.trimStart out = out.
Proof.
  cbv zeta. split; [apply sanitizeInput_length|]. split.
  - eapply Forall_impl; [apply sanitizeInput_clean|].
    intros x. unfold Security.clean, Security.is_markup.
    intros [Hc Hm]%andb_true_iff.
    apply negb_true_iff in Hc, Hm.
    repeat (apply orb_false_iff in Hm as [Hm ?]).
    repeat split; try done; intros ->; discriminate.
  - apply starts_clean_trimStart. rewrite sanitizeInput_unfold.
    apply take_starts_clean. unfold RegExp.trim.
    apply trimEnd_starts_clean, trimStart_starts_clean.
Qed.

Section MustHit.
Import RegExp.
Variable marks : list Z.
Variables i s : bool.
Implicit Types (x y : MatchState) (k : MatchState → option MatchState).

(** No code unit of [marks] lies at or after the position. *)
Let unmarked x : Prop := Forall (λ c, c ∉ marks) (rest x).

Lemma cls_within_hit c ch :
  cls_within marks c = true → cls_matches i s c ch = true → ch ∈ marks.
Proof.
  destruct c as [l| | | | | | |]; try done. simpl.
  intros Hall [a [Ha Hm]]%existsb_exists.
  apply (proj1 (forallb_forall _ _) Hall) in Ha.
  apply andb_true_iff in Ha as [Hin Hletter].
  apply bool_decide_eq_true_1 in Hin. apply negb_true_iff in Hletter.
  unfold is_letter, between in Hletter.
  assert (a = ch) as <-; [|done].
  destruct i.
  - apply Z.eqb_eq in Hm. unfold canonicalize, between in Hm.
    apply orb_false_iff in Hletter as [H1 H2].
    rewrite H2 in Hm.
    destruct ((97 <=? ch) && (ch <=? 122)) eqn:Hch; [|done].
    apply andb_true_iff in Hch as [? ?].
    apply andb_false_iff in H1. destruct H1; lia.
  - by apply Z.eqb_eq.
Qed.

Lemma repeat_matcher_blocked m greedy :
  (∀ k x, unmarked x → (∀ y, unmarked y → k y = None) → m k x = None) →
  ∀ fuel min max k x,
    unmarked x → (∀ y, unmarked y → k y = None) →
    repeat_matcher m greedy k fuel min max x = None.
Proof.
  intros Hm. induction fuel as [|fuel IH]; intros min max k x Hx Hk; [done|].
  cbn [repeat_matcher].
  assert (Hd : m (λ y, if (min =? 0)%nat && (endIndex y =? endIndex x)%nat
                       then None
                       else repeat_matcher m greedy k fuel (Nat.pred min)
                              (Nat.pred <$> max) y) x = None).
  { apply Hm; [done|]. intros y Hy. destruct (_ && _); [done | by apply IH]. }
  rewrite Hd, (Hk x Hx).
  destruct max as [[|max]|]; [done| |]; by destruct (negb _), greedy.
Qed.

Lemma matcher_blocked r : ∀ k x,
  unmarked x → (∀ y, unmarked y → k y = None) → matcher i s r k x = None.
Proof.
  induction r as [|c|a IHa b IHb|a IHa b IHb|greedy min max a IHa| | |a IHa];
    intros k x Hx Hk; simpl.
  - by apply Hk.
  - destruct (rest x) as [|ch rest'] eqn:Hrest; [done|].
    destruct (cls_matches i s c ch); [|done].
    apply Hk. unfold unmarked in *. simpl. rewrite Hrest in Hx.
    by apply Forall_cons in Hx as [_ ?].
  - apply IHa; [done|]. intros y Hy. by apply IHb.
  - by rewrite IHa, IHb.
  - by apply repeat_matcher_blocked.
  - destruct (_ =? _)%nat; [by apply Hk | done].
  - destruct (rest x); [by apply Hk | done].
  - destruct (matcher i s a Some x); [done | by apply Hk].
Qed.

(** A pattern that cannot do without a mark matches nowhere in unmarked
    text. *)
Lemma matcher_must_hit r : ∀ k x,
  must_hit marks r = true → unmarked x → matcher i s r k x = None.
Proof.
  induction r as [|c|a IHa b IHb|a IHa b IHb|greedy min max a IHa| | |a IHa];
    intros k x Hr Hx; simpl in *; try done.
  - destruct (rest x) as [|ch rest'] eqn:Hrest; [done|].
    destruct (cls_matches i s c ch) eqn:Hc; [|done].
    exfalso. pose proof (cls_within_hit c ch Hr Hc) as Hin.
    unfold unmarked in Hx. rewrite Hrest in Hx.
    by apply Forall_cons in Hx as [? _].
  - apply orb_true_iff in Hr as [Ha|Hb]; [by apply IHa|].
    apply matcher_blocked; [done|]. intros y Hy. by apply IHb.
  - apply andb_true_iff in Hr as [Ha Hb]. by rewrite IHa, IHb.
  - apply andb_true_iff in Hr as [[Hmin Hmax]%andb_true_iff Ha].
    apply negb_true_iff in Hmax. apply bool_decide_eq_false_1 in Hmax.
    rewrite Nat.add_1_r. cbn [repeat_matcher]. rewrite Hmin.
    rewrite IHa by done.
    destruct max as [[|max]|]; done.
Qed.

Lemma search_must_hit (R : RegExp) (suffix : list Z) : ∀ index,
  ignoreCase R = i → dotAll R = s →
  must_hit marks (pattern R) = true →
  Forall (λ c, c ∉ marks) suffix →
  search R index suffix = false.
Proof.
  intros index Hi Hs Hr. revert index.
  induction suffix as [|c suffix IH]; intros index Hfree.
  - simpl. unfold exec_at. rewrite Hi, Hs.
    by rewrite matcher_must_hit.
  - cbn [search]. unfold exec_at at 1. rewrite Hi, Hs.
    rewrite matcher_must_hit by done. simpl.
    apply Forall_cons in Hfree as [_ Hfree]. by apply IH.
Qed.

End MustHit.

Section PlainText.
Import RegExp Security.

Lemma plain_parts x :
  plain x = true →
  is_control x = false ∧ clean x = true ∧ x ∉ trigger_marks.
Proof.
  unfold plain, clean.
  intros [[Hc Hm]%andb_true_iff Ht]%andb_true_iff.
  apply negb_true_iff in Ht. apply bool_decide_eq_false_1 in Ht.
  split; [by apply negb_true_iff|]. split; [|done].
  by rewrite Hc, Hm.
Qed.

Lemma plain_no_dangerous_pattern s :
  Forall (λ x, plain x = true) s → no_dangerous_pattern s = true.
Proof.
  intros Hs. unfold no_dangerous_pattern.
  assert (Hall : forallb (λ R, must_hit trigger_marks (pattern R))
                   DANGEROUS_PATTERNS = true) by by vm_compute.
  apply forallb_forall. intros R HR.
  apply (proj1 (forallb_forall _ _) Hall) in HR.
  apply negb_true_iff.
  apply (search_must_hit trigger_marks (ignoreCase R) (dotAll R)); try done.
  eapply Forall_impl; [exact Hs|]. intros x Hx. cbv beta.
  by apply plain_parts in Hx as (_ & _ & ?).
Qed.

End PlainText.

(** X12 — Plain text passes.  An input that holds no control character, no
    ampersand, angle bracket, quote, apostrophe or slash, and no colon,
    equals sign, opening parenthesis or at sign, is only trimmed and cut to
    2000 code units: no dangerous pattern can match in it and nothing is
    encoded. *)
Theorem plain_text_is_only_trimmed (input : list Z) :
  Forall (λ x, Security.plain x = true) input →
  Security.sanitizeInput input = take 2000 (RegExp.trim input).
Proof.
  intros Hplain. rewrite sanitizeInput_unfold.
  rewrite strip_control_id.
  2:{ eapply Forall_impl; [exact Hplain|]. intros x Hx.
      by apply plain_parts in Hx as (? & _). }
  rewrite strip_patterns_id by by apply plain_no_dangerous_pattern.
  rewrite encode_entities_flat_map, flat_map_singletons.
  2:{ eapply Forall_impl; [exact Hplain|]. intros x Hx.
      apply plain_parts in Hx as (_ & Hc & Ht).
      apply entity_of_plain; [done|]. intros ->. apply Ht.
      apply (bool_decide_unpack _). by vm_compute. }
  rewrite replace_no_match; [done|].
  apply any_tag_needs_lt. eapply Forall_impl; [exact Hplain|].
  intros x Hx ->. by vm_compute in Hx.
Qed.

Lemma plain_text_is_only_trimmed_witness :
  Security.sanitizeInput (str "  Hello there, this is a test.  ")
  = str "Hello there, this is a test.".
Proof.
  rewrite (plain_text_is_only_trimmed (str "  Hello there, this is a test.  ")).
  - by vm_compute.
  - apply (bool_decide_unpack _). by vm_compute.
Defined.

Section StatefulTest.
Import RegExp Security.
Implicit Types (R : RegExp) (s suffix : list Z) (index lastIndex : nat).

Lemma find_from_search R suffix : ∀ index,
  search R index suffix = bool_decide (is_Some (find_from R index suffix)).
Proof.
  induction suffix as [|c suffix IH]; intros index; simpl.
  - destruct (exec_at R index []); [by rewrite bool_decide_eq_true_2|].
    rewrite bool_decide_eq_false_2; [done | by intros [? ?]].
  - destruct (exec_at R index (c :: suffix));
      [by rewrite bool_decide_eq_true_2 | apply IH].
Qed.

Lemma search_drop R n : ∀ suffix index,
  (n <= length suffix)%nat →
  search R (index + n) (drop n suffix) = true → search R index suffix = true.
Proof.
  induction n as [|n IH]; intros suffix index Hn.
  - by rewrite Nat.add_0_r, drop_0.
  - destruct suffix as [|c suffix]; [simpl in Hn; lia|].
    intros H. cbn [search]. destruct (exec_at R index (c :: suffix)); [done|].
    apply (IH suffix (S index)); [simpl in Hn; lia|].
    by replace (S index + n)%nat with (index + S n)%nat by lia.
Qed.

Lemma test_global_sound R lastIndex s :
  (test_global R lastIndex s).1 = true → search R 0 s = true.
Proof.
  unfold test_global. destruct (Nat.ltb_spec (length s) lastIndex); [done|].
  destruct (find_from R lastIndex (drop lastIndex s)) as [e|] eqn:He; [|done].
  intros _. apply (search_drop R lastIndex s 0); [done|].
  cbn [Nat.add]. rewrite find_from_search, He. by apply bool_decide_eq_true_2.
Qed.

Lemma test_global_fresh R s : (test_global R 0 s).1 = search R 0 s.
Proof.
  unfold test_global. simpl. rewrite drop_0, find_from_search.
  destruct (find_from R 0 s);
    [by rewrite bool_decide_eq_true_2
    |rewrite bool_decide_eq_false_2; [done | by intros [? ?]]].
Qed.

Lemma test_global_failed R lastIndex s :
  (test_global R lastIndex s).1 = false → (test_global R lastIndex s).2 = 0%nat.
Proof.
  unfold test_global. destruct (_ <? _)%nat; [done|].
  by destruct (find_from _ _ _).
Qed.

Lemma some_test_sound (patterns : list RegExp) s : ∀ lastIndexes,
  (some_test patterns lastIndexes s).1 = true →
  existsb (λ R, search R 0 s) patterns = true.
Proof.
  induction patterns as [|R patterns IH]; intros [|lastIndex lastIndexes];
    try done. cbn [some_test existsb].
  pose proof (test_global_sound R lastIndex s) as HR.
  destruct (test_global R lastIndex s) as [[|] li']; simpl in *.
  - intros _. by rewrite HR.
  - specialize (IH lastIndexes).
    destruct (some_test patterns lastIndexes s) as [found lis'']. simpl in *.
    intros H. rewrite IH by done. apply orb_true_r.
Qed.

Lemma some_test_fresh (patterns : list RegExp) s :
  (some_test patterns (replicate (length patterns) 0%nat) s).1
  = existsb (λ R, search R 0 s) patterns.
Proof.
  induction patterns as [|R patterns IH]; [done|]. cbn [some_test existsb length replicate].
  pose proof (test_global_fresh R s) as HR.
  destruct (test_global R 0 s) as [[|] li']; simpl in *.
  - by rewrite <- HR.
  - rewrite <- HR. simpl.
    by destruct (some_test patterns (replicate (length patterns) 0%nat) s).
Qed.

Lemma some_test_failed (patterns : list RegExp) s : ∀ lastIndexes,
  length lastIndexes = length patterns →
  (some_test patterns lastIndexes s).1 = false →
  (some_test patterns lastIndexes s).2 = replicate (length patterns) 0%nat.
Proof.
  induction patterns as [|R patterns IH]; intros [|lastIndex lastIndexes];
    try done. cbn [some_test length replicate]. intros [= Hlen].
  pose proof (test_global_failed R lastIndex s) as HR.
  destruct (test_global R lastIndex s) as [[|] li']; simpl in *; [done|].
  specialize (IH lastIndexes Hlen).
  destruct (some_test patterns lastIndexes s) as [found lis'']. simpl in *.
  intros ->. by rewrite HR, IH.
Qed.

Lemma no_dangerous_pattern_existsb s :
  no_dangerous_pattern s = negb (existsb (λ R, search R 0 s) DANGEROUS_PATTERNS).
Proof.
  unfold no_dangerous_pattern.
  induction DANGEROUS_PATTERNS as [|R l IH]; [done|]. simpl.
  by rewrite IH, negb_orb.
Qed.

End StatefulTest.

(** X13 — [containsDangerousPatterns] and the [lastIndex] of its patterns.
    Whatever state the patterns are in, the function never reports an input
    in which no dangerous pattern occurs.  After a call that returned
    [false], every pattern is back at [lastIndex = 0].  From that state (the
    state after [sanitizeInput] as well) the answer is exact; from another
    state a dangerous input can be missed. *)
Theorem dangerous_pattern_detection
    (input : list Z) (lastIndexes : list nat) :
  length lastIndexes = length Security.DANGEROUS_PATTERNS →
  let out := Security.containsDangerousPatterns input lastIndexes in
  (out.1 = true → Security.no_dangerous_pattern input = false)
  ∧ (out.1 = false → out.2 = Security.fresh_lastIndexes)
  ∧ (lastIndexes = Security.fresh_lastIndexes →
     out.1 = negb (Security.no_dangerous_pattern input)).
Proof.
  intros Hlen. cbv zeta. unfold Security.containsDangerousPatterns.
  rewrite no_dangerous_pattern_existsb. repeat split.
  - intros H. by rewrite (some_test_sound _ _ _ H).
  - by apply some_test_failed.
  - intros ->. rewrite negb_involutive. apply some_test_fresh.
Qed.

Lemma dangerous_pattern_detection_witness :
  let first :=
    Security.containsDangerousPatterns (str "javascript:")
      Security.fresh_lastIndexes in
  let second := Security.containsDangerousPatterns (str "javascript:") first.2 in
  first.1 = true ∧ second.1 = false
  ∧ Security.no_dangerous_pattern (str "javascript:") = false.
Proof.
  cbv zeta. split; [by vm_compute|]. split; [by vm_compute|].
  destruct (dangerous_pattern_detection (str "javascript:")
              Security.fresh_lastIndexes) as (H & _ & _).
  - reflexivity.
  - apply H. by vm_compute.
Defined.

Section RequestSize.
Import RegExp Security.

Lemma is_digit_not_space c : is_digit c = true → is_space c = false.
Proof.
  unfold is_digit, is_space, between. intros [? ?]%andb_true_iff.
  repeat (apply orb_false_iff; split); try apply andb_false_iff; lia.
Qed.

Lemma decimal_aux_spec fuel : ∀ n acc,
  (n < fuel)%nat →
  ∃ ds, decimal_aux fuel n acc = ds ++ acc
        ∧ ds ≠ []
        ∧ Forall (λ c, is_digit c = true) ds
        ∧ ∀ a tail, parse_digits a (ds ++ tail)
                    = parse_digits (a * 10 ^ Z.of_nat (length ds) + Z.of_nat n)
                                   tail.
Proof.
  induction fuel as [|fuel IH]; intros n acc Hn; [lia|].
  cbn [decimal_aux].
  pose proof (Nat.mod_upper_bound n 10) as Hmod.
  pose proof (Nat.div_mod_eq n 10) as Hdivmod.
  remember (48 + Z.of_nat (n mod 10)) as d eqn:Hdef.
  assert (Hd : is_digit d = true).
  { unfold is_digit, between. apply andb_true_iff. split; lia. }
  destruct (Nat.ltb_spec n 10) as [Hsmall|Hbig].
  - exists [d]. repeat split; [done|by constructor|].
    intros a tail. cbn [app parse_digits length]. rewrite Hd.
    rewrite Nat.mod_small in Hdef by done. f_equal. lia.
  - destruct (IH (n / 10)%nat (d :: acc)) as (ds & Heq & Hne & Hds & Hparse).
    { pose proof (Nat.div_lt n 10). lia. }
    exists (ds ++ [d]). repeat split.
    + by rewrite Heq, <- app_assoc.
    + by destruct ds.
    + apply Forall_app. split; [done | by constructor].
    + intros a tail. rewrite <- app_assoc, Hparse.
      cbn [app parse_digits]. rewrite Hd.
      f_equal. rewrite length_app. cbn [length].
      rewrite Nat2Z.inj_add, Z.pow_add_r by lia.
      change (Z.of_nat 1) with 1. rewrite Z.pow_1_r. lia.
Qed.

Lemma parseInt10_digits ds :
  ds ≠ [] → Forall (λ c, is_digit c = true) ds →
  parseInt10 ds = Some (parse_digits 0 ds).
Proof.
  intros Hne Hds. destruct Hds as [|c ds Hc Hds]; [done|].
  unfold parseInt10. cbn [trimStart]. rewrite (is_digit_not_space c Hc).
  assert (48 <= c <= 57) as Hrange.
  { unfold is_digit, between in Hc. apply andb_true_iff in Hc. lia. }
  rewrite (proj2 (Z.eqb_neq c 45)), (proj2 (Z.eqb_neq c 43)) by lia.
  rewrite Hc. f_equal. lia.
Qed.

Lemma parseInt10_decimal n : parseInt10 (decimal n) = Some (Z.of_nat n).
Proof.
  unfold decimal.
  destruct (decimal_aux_spec (S n) n []) as (ds & Heq & Hne & Hds & Hparse);
    [lia|].
  rewrite Heq, app_nil_r, parseInt10_digits by done.
  specialize (Hparse 0 []). rewrite app_nil_r in Hparse.
  rewrite Hparse. by simpl.
Qed.

Lemma decimal_nonempty n : ∃ c l, decimal n = c :: l ∧ is_digit c = true.
Proof.
  unfold decimal.
  destruct (decimal_aux_spec (S n) n []) as (ds & Heq & Hne & Hds & _); [lia|].
  rewrite Heq, app_nil_r. destruct Hds as [|c ds Hc _]; [done|].
  by exists c, ds.
Qed.

Lemma parseInt10_minus_decimal n :
  parseInt10 (45 :: decimal n) = Some (- Z.of_nat n).
Proof.
  pose proof (parseInt10_decimal n) as H.
  destruct (decimal_nonempty n) as (c & l & Heq & Hc).
  rewrite Heq in *. unfold parseInt10 in *.
  cbn [trimStart] in *. rewrite (is_digit_not_space c Hc) in H.
  assert (48 <= c <= 57) as Hrange.
  { unfold is_digit, between in Hc. apply andb_true_iff in Hc. lia. }
  rewrite (proj2 (Z.eqb_neq c 45)), (proj2 (Z.eqb_neq c 43)) in H by lia.
  change (is_space 45) with false. cbn [Z.eqb Pos.eqb]. rewrite Hc in *.
  remember (parse_digits 0 (c :: l)) as v. injection H as H. f_equal. lia.
Qed.

End RequestSize.

(** X14 — The request-size guard.  A request without a [content-length]
    header, or with an empty one, passes with size 0.  A header that is the
    decimal numeral of [n] passes exactly when [n <= 10240], and its size is
    [n] as long as [n] is at most 2^53 (beyond, the size is a rounded
    double); with a minus sign before it, it passes.  A header that starts
    with anything but white space, a sign or a digit does not parse and is
    refused. *)
Theorem request_size_guard :
  Security.validateRequestSize None
    = {| Security.valid := true; Security.size := Some 0 |}
  ∧ Security.validateRequestSize (Some [])
    = {| Security.valid := true; Security.size := Some 0 |}
  ∧ (∀ n : nat,
       Security.valid (Security.validateRequestSize (Some (Security.decimal n)))
       = bool_decide (Z.of_nat n <= 10240))
  ∧ (∀ n : nat,
       Z.of_nat n <= 2 ^ 53 →
       Security.size (Security.validateRequestSize (Some (Security.decimal n)))
       = Some (Z.of_nat n))
  ∧ (∀ n : nat,
       Security.valid
         (Security.validateRequestSize (Some (45 :: Security.decimal n)))
       = true)
  ∧ (∀ c l,
       RegExp.is_digit c = false → RegExp.is_space c = false →
       c ≠ 45 → c ≠ 43 →
       Security.validateRequestSize (Some (c :: l))
       = {| Security.valid := false; Security.size := None |}).
Proof.
  split; [done|]. split; [done|]. split; [|split; [|split]].
  - intros n. unfold Security.validateRequestSize.
    destruct (decimal_nonempty n) as (c & l & Heq & _).
    pose proof (parseInt10_decimal n) as H. rewrite Heq in *. by rewrite H.
  - intros n _. unfold Security.validateRequestSize.
    destruct (decimal_nonempty n) as (c & l & Heq & _).
    pose proof (parseInt10_decimal n) as H. rewrite Heq in *. by rewrite H.
  - intros n. unfold Security.validateRequestSize.
    rewrite parseInt10_minus_decimal. simpl.
    apply bool_decide_eq_true_2. unfold Security.MAX_REQUEST_SIZE. lia.
  - intros c l Hd Hs H45 H43. unfold Security.validateRequestSize.
    unfold Security.parseInt10. cbn [RegExp.trimStart]. rewrite Hs.
    rewrite (proj2 (Z.eqb_neq c 45)), (proj2 (Z.eqb_neq c 43)) by done.
    by rewrite Hd.
Qed.

Lemma request_size_guard_witness :
  Security.valid (Security.validateRequestSize (Some (str "10240"))) = true
  ∧ Security.valid (Security.validateRequestSize (Some (str "10241"))) = false
  ∧ Security.size (Security.validateRequestSize (Some (str "10241")))
    = Some 10241
  ∧ Security.validateRequestSize (Some (str "abc"))
    = {| Security.valid := false; Security.size := None |}.
Proof.
  destruct request_size_guard as (_ & _ & Hdec & Hsize & _ & Hnan).
  split; [|split; [|split]].
  - exact (Hdec (Z.to_nat 10240)).
  - exact (Hdec (Z.to_nat 10241)).
  - apply (Hsize (Z.to_nat 10241)). by vm_compute.
  - apply Hnan; by vm_compute.
Defined.

(* ================================================================== *)
(** * Properties of the name and message fields *)

Section WholeOf.
Import RegExp Validations.
Variable c : cls.

(** What follows the class in the pattern: the end of the input. *)
Let at_end (y : MatchState) : option MatchState :=
  matcher false false (Cat AssertEnd Empty) Some y.

Lemma repeat_class_to_end : ∀ (s : list Z) fuel min index,
  (min + length s < fuel)%nat →
  repeat_matcher (matcher false false (Atom c)) true at_end fuel min None
    {| endIndex := index; rest := s |}
  = if forallb (cls_matches false false c) s && (min <=? length s)%nat
    then Some {| endIndex := index + length s; rest := [] |}
    else None.
Proof.
  induction s as [|ch s IH]; intros fuel min index Hfuel;
    (destruct fuel as [|fuel]; [lia|]); cbn [repeat_matcher].
  - destruct min as [|min]; simpl; [|done].
    by rewrite Nat.add_0_r.
  - cbn [matcher rest forallb length].
    destruct (cls_matches false false c ch); cbn [andb].
    2:{ by destruct min. }
    cbn [endIndex]. rewrite (proj2 (Nat.eqb_neq (S index) index)) by lia.
    rewrite andb_false_r. rewrite IH by (simpl in Hfuel; lia).
    replace (index + S (length s))%nat with (S index + length s)%nat by lia.
    destruct min as [|min]; cbn [Nat.eqb negb Nat.pred Nat.leb].
    + by destruct (forallb _ s).
    + done.
Qed.

Lemma whole_of_not_later min (suffix : list Z) : ∀ index,
  search (whole_of min c) (S index) suffix = false.
Proof.
  induction suffix as [|ch suffix IH]; intros index; [done|].
  cbn [search]. rewrite IH. done.
Qed.

Lemma test_whole_of min (s : list Z) :
  test (whole_of min c) s
  = forallb (cls_matches false false c) s && (min <=? length s)%nat.
Proof.
  unfold test.
  assert (Hexec : exec_at (whole_of min c) 0 s
    = if forallb (cls_matches false false c) s && (min <=? length s)%nat
      then Some (length s) else None).
  { unfold exec_at, whole_of, cat.
    cbn [foldr pattern ignoreCase dotAll matcher endIndex Nat.eqb rest].
    change (matcher false false AssertEnd (matcher false false Empty Some))
      with at_end.
    rewrite repeat_class_to_end by lia.
    by destruct (_ && _). }
  destruct s as [|ch s]; cbn [search]; rewrite Hexec.
  - by destruct (_ && _).
  - rewrite whole_of_not_later. by destruct (_ && _).
Qed.

End WholeOf.

Section FieldFacts.
Import RegExp Validations.
Implicit Types (value : list Z).

Lemma trim_split value :
  ∃ before after,
    value = before ++ trim value ++ after
    ∧ Forall (λ x, is_space x = true) before
    ∧ Forall (λ x, is_space x = true) after.
Proof.
  destruct (trimStart_split value) as (before & H1 & Hb).
  destruct (trimEnd_split (trimStart value)) as (after & H2 & Ha).
  exists before, after. split; [|done].
  unfold trim. by rewrite <- H2.
Qed.

Lemma trim_nil value :
  trim value = [] ↔ Forall (λ x, is_space x = true) value.
Proof.
  split.
  - intros H. destruct (trim_split value) as (before & after & Hv & Hb & Ha).
    rewrite Hv, H. apply Forall_app. by split.
  - intros H. unfold trim. by rewrite trimStart_all_blank.
Qed.

Lemma trim_keeps_class (P : Z → bool) value :
  (∀ x, is_space x = true → P x = true) →
  Forall (λ x, P x = true) (trim value) ↔ Forall (λ x, P x = true) value.
Proof.
  intros Hspace. split; [|apply trim_Forall].
  intros H. destruct (trim_split value) as (before & after & Hv & Hb & Ha).
  rewrite Hv. repeat (apply Forall_app; split); try done.
  - eapply Forall_impl; [exact Hb | exact Hspace].
  - eapply Forall_impl; [exact Ha | exact Hspace].
Qed.

Lemma name_class_char x : cls_matches false false name_class x = name_char x.
Proof.
  unfold name_class, name_char, is_letter. cbn [cls_matches existsb andb].
  rewrite !(Z.eqb_sym _ x), !orb_false_r.
  destruct (between 97 122 x), (between 65 90 x), (is_space x),
    (x =? 39), (x =? 45); done.
Qed.

Lemma message_class_char x :
  cls_matches false false message_class x = message_char x.
Proof.
  unfold message_class, message_char, is_letter.
  cbn [cls_matches andb]. rewrite !orb_false_r.
  assert (existsb (λ a, a =? x) [33; 63; 46; 44; 39; 34; 40; 41]
          = bool_decide (x ∈ [33; 63; 46; 44; 39; 34; 40; 41])) as ->.
  { destruct (existsb _ _) eqn:He.
    - apply existsb_exists in He as (a & Ha & ->%Z.eqb_eq).
      symmetry. apply bool_decide_eq_true_2. by apply list_elem_of_In.
    - symmetry. apply bool_decide_eq_false_2. intros Hin.
      apply list_elem_of_In in Hin.
      assert (existsb (λ a, a =? x) [33; 63; 46; 44; 39; 34; 40; 41] = true)
        by (apply existsb_exists; exists x; split; [done | apply Z.eqb_refl]).
      congruence. }
  destruct (between 97 122 x), (between 65 90 x), (is_digit x), (is_space x),
    (bool_decide _); done.
Qed.

Lemma forallb_Forall_class (P Q : Z → bool) (l : list Z) :
  (∀ x, P x = Q x) →
  forallb P l = true ↔ Forall (λ x, Q x = true) l.
Proof.
  intros HPQ. rewrite forallb_forall, Forall_forall.
  split; intros H x Hx.
  - rewrite <- HPQ. by apply H, list_elem_of_In.
  - rewrite HPQ. by apply H, list_elem_of_In.
Qed.

End FieldFacts.

(** X15 — The name field.  It raises no issue exactly when the value as sent
    is 2 to 100 code units long, consists of letters, white space,
    apostrophes and hyphens, and is not all white space.  The length is taken
    before the value is trimmed: a single letter padded with a blank is
    accepted, and the value put out is the trimmed one. *)
Theorem name_field_accepts (value : list Z) :
  (Validations.contactFormSchema_name value).1 = [] ↔
    (2 <= length value <= 100)%nat
    ∧ Forall (λ x, Validations.name_char x = true) value
    ∧ ¬ Forall (λ x, RegExp.is_space x = true) value.
Proof.
  unfold Validations.contactFormSchema_name. cbn [fst].
  rewrite test_whole_of.
  rewrite <- (trim_keeps_class Validations.name_char value).
  2:{ intros x Hx. unfold Validations.name_char. rewrite Hx.
      by rewrite orb_true_r. }
  rewrite <- trim_nil.
  rewrite <- (forallb_Forall_class _ _ _ name_class_char).
  destruct (Nat.ltb_spec (length value) 2);
    destruct (Nat.ltb_spec 100 (length value));
    destruct (forallb _ _); cbn [andb app];
    try (split; [done | intros (? & ? & ?); (lia || done)]).
  destruct (RegExp.trim value) as [|x l].
  - split; [done | intros (_ & _ & H'); by destruct H'].
  - split; [|done]. intros _. by repeat split; try lia.
Qed.

(** X16 — The message field.  It raises no issue exactly when the value as
    sent is 10 to 1000 code units long and consists of letters, digits, white
    space and the punctuation of the pattern.  Nothing asks for a visible
    character: ten blanks are accepted, and the value put out is then
    empty. *)
Theorem message_field_accepts (value : list Z) :
  ((Validations.contactFormSchema_message value).1 = [] ↔
     (10 <= length value <= 1000)%nat
     ∧ Forall (λ x, Validations.message_char x = true) value)
  ∧ (Forall (λ x, RegExp.is_space x = true) value →
     (Validations.contactFormSchema_message value).2 = []).
Proof.
  split.
  - unfold Validations.contactFormSchema_message. cbn [fst].
    rewrite test_whole_of.
    rewrite <- (trim_keeps_class Validations.message_char value).
    2:{ intros x Hx. unfold Validations.message_char. rewrite Hx.
        by rewrite orb_true_r. }
    rewrite <- (forallb_Forall_class _ _ _ message_class_char).
    destruct (Nat.ltb_spec (length value) 10);
      destruct (Nat.ltb_spec 1000 (length value));
      destruct (forallb _ _); cbn [andb app Nat.leb];
      split; try done; try (intros (? & ?); (lia || done)).
  - intros H. unfold Validations.contactFormSchema_message. cbn [snd].
    by apply trim_nil.
Qed.

Lemma message_field_accepts_witness :
  (Validations.contactFormSchema_message (replicate 10 32)).1 = []
  ∧ (Validations.contactFormSchema_message (replicate 10 32)).2 = [].
Proof.
  destruct (message_field_accepts (replicate 10 32)) as [[_ Hacc] Hout].
  split.
  - apply Hacc. split; [vm_compute; lia|].
    apply (bool_decide_unpack _). by vm_compute.
  - apply Hout. apply (bool_decide_unpack _). by vm_compute.
Defined.

Lemma name_field_accepts_witness :
  (Validations.contactFormSchema_name (str "J ")).1 = []
  ∧ (Validations.contactFormSchema_name (str "J ")).2 = str "J".
Proof.
  split; [|by vm_compute].
  apply (name_field_accepts (str "J ")). split; [vm_compute; lia|]. split.
  - apply (bool_decide_unpack _). by vm_compute.
  - intros H. apply Forall_inv in H. by vm_compute in H.
Defined.

(* ================================================================== *)
(** * Properties of the request handlers *)

Section HandlerFacts.
Import Route.
Implicit Types (tokenStore : gmap (list Z) Csrf.StoredToken)
  (limiter : gmap (list Z) RateLimit.RateLimitEntry).

Lemma validate_keeps_or_deletes t secret sid tokenStore k stored :
  (Csrf.validateCSRFToken t secret sid tokenStore).2 !! k = Some stored →
  tokenStore !! k = Some stored.
Proof.
  unfold Csrf.validateCSRFToken.
  destruct (tokenStore !! sid) as [st|]; [|done].
  assert (Hdel : delete sid tokenStore !! k = Some stored →
                 tokenStore !! k = Some stored).
  { rewrite lookup_delete. by case_decide. }
  case_decide; [done|]. by destruct (Csrf.timingSafeEqual _ _).
Qed.

Lemma validate_empty t secret sid :
  Csrf.validateCSRFToken t secret sid ∅ = (Csrf.Returned false, ∅).
Proof. apply validate_absent, lookup_empty. Qed.

Lemma POST_empty_tokens env now now' request limiter :
  (POST env now now' request limiter ∅).2 = ∅.
Proof.
  unfold POST. destruct (negb _); [done|].
  destruct (body request) as [b|]; [|done].
  destruct (RateLimit.check _ _ _ _) as [res limiter'].
  destruct (negb _); [done|].
  destruct (_ && _ && _).
  - by rewrite validate_empty.
  - by repeat destruct (negb _).
Qed.

Lemma served_empty tokenStore : served tokenStore → tokenStore = ∅.
Proof.
  induction 1 as [|random1 random2 now tokenStore _ ->
                  |env now now' request limiter tokenStore _ ->]; [done| |].
  - unfold GET. by rewrite validate_empty.
  - apply POST_empty_tokens.
Qed.

End HandlerFacts.

(** X17 — The token that [GET] hands out.  [GET] never adds an entry to the
    token store: it calls the validation, not the issuance.  So the session
    key and token of its 200 response are never accepted: a validation of
    that pair returns [false], at any time. *)
Theorem get_token_is_never_accepted
    (random1 random2 : list Z) (now t : Z)
    (tokenStore : gmap (list Z) Csrf.StoredToken) :
  let out := Route.GET random1 random2 now tokenStore in
  (∀ k stored, out.2 !! k = Some stored → tokenStore !! k = Some stored)
  ∧ (∀ sid tok, out.1.2 = Some (sid, tok) →
       out.1.1 = 200
       ∧ Csrf.validateCSRFToken t tok sid out.2 = (Csrf.Returned false, out.2))
  ∧ (tokenStore = ∅ → out.1.1 = 200 ∧ out.2 = ∅).
Proof.
  cbv zeta. unfold Route.GET.
  pose proof (validate_keeps_or_deletes now (str "")
                (Csrf.generateSessionId random1) tokenStore) as Hsub.
  pose proof (validate_returned_consumes now (str "")
                (Csrf.generateSessionId random1) tokenStore) as Hcons.
  split; [|split].
  - intros k stored.
    destruct (Csrf.validateCSRFToken _ _ _ _) as [[b|e] tokenStore'];
      apply Hsub.
  - intros sid tok.
    destruct (Csrf.validateCSRFToken _ _ _ _) as [[b|e] tokenStore'];
      [|done].
    simpl. intros [= <- <-]. split; [done|].
    apply validate_absent. by eapply Hcons.
  - intros ->. by rewrite validate_empty.
Qed.

Lemma get_token_is_never_accepted_witness :
  let out := Route.GET [1; 2] [3] 0 ∅ in
  out.1.1 = 200
  ∧ Csrf.validateCSRFToken 5 (Csrf.generateSessionId [3])
      (Csrf.generateSessionId [1; 2]) out.2
    = (Csrf.Returned false, out.2).
Proof.
  cbv zeta.
  destruct (get_token_is_never_accepted [1; 2] [3] 0 5 ∅) as (_ & Hpair & _).
  apply Hpair. by vm_compute.
Defined.

(** X18 — When [POST] skips the token.  If the body has no [csrf_token] or no
    [sessionId] (or an empty one), or outside production, the token is not
    validated: the response is never 403 and the token store is left as it
    was. *)
Theorem post_without_token_is_not_refused
    (env : Route.Environment) (now now' : Z) (request : Route.Request)
    (limiter : gmap (list Z) RateLimit.RateLimitEntry)
    (tokenStore : gmap (list Z) Csrf.StoredToken) :
  (∀ b, Route.body request = Some b →
        Route.truthy (Route.csrf_token b) = false
        ∨ Route.truthy (Route.sessionId b) = false
        ∨ Route.production env = false) →
  let out := Route.POST env now now' request limiter tokenStore in
  out.1.1 ≠ 403 ∧ out.2 = tokenStore.
Proof.
  intros Hskip. cbv zeta. unfold Route.POST.
  destruct (negb _); [done|].
  destruct (Route.body request) as [b|]; [|done].
  destruct (RateLimit.check _ _ _ _) as [res limiter'].
  destruct (negb _); [done|].
  assert (Route.truthy (Route.csrf_token b)
          && Route.truthy (Route.sessionId b) && Route.production env = false)
    as ->.
  { destruct (Hskip b eq_refl) as [-> | [-> | ->]];
      by rewrite ?andb_false_r. }
  by repeat destruct (negb _).
Qed.

Lemma post_without_token_is_not_refused_witness :
  let request :=
    {| Route.content_length := None; Route.x_forwarded_for := None;
       Route.x_real_ip := None;
       Route.body := Some {| Route.name := Some (str "Jo");
                             Route.email := Some (str "jo@example.com");
                             Route.message :=
                               Some (str "Hello there, this is a test.");
                             Route.csrf_token := None;
                             Route.sessionId := None |} |} in
  let env := {| Route.production := true;
                Route.is_email := RegExp.test Security.emailRegex;
                Route.database_ok := true |} in
  (Route.POST env 0 0 request ∅ ∅).1.1 = 200
  ∧ (Route.POST env 0 0 request ∅ ∅).1.1 ≠ 403.
Proof.
  cbv zeta. split; [by vm_compute|].
  apply post_without_token_is_not_refused.
  intros b [= <-]. by left.
Defined.

(** X19 — [POST] with a token, in production.  The token store that the two
    handlers leave is always empty, since neither issues a token.  So in
    production a request that carries a [csrf_token] and a [sessionId] never
    succeeds: the response is 413, 500 (unreadable body), 429 or 403. *)
Theorem production_post_with_token_fails
    (env : Route.Environment) (now now' : Z) (request : Route.Request)
    (limiter : gmap (list Z) RateLimit.RateLimitEntry)
    (tokenStore : gmap (list Z) Csrf.StoredToken) :
  Route.served tokenStore →
  Route.production env = true →
  (∀ b, Route.body request = Some b →
        Route.truthy (Route.csrf_token b) = true
        ∧ Route.truthy (Route.sessionId b) = true) →
  let out := Route.POST env now now' request limiter tokenStore in
  tokenStore = ∅
  ∧ out.1.1 ∈ [413; 500; 429; 403]
  ∧ (out.1.1 = 500 → Route.body request = None)
  ∧ out.2 = ∅.
Proof.
  intros Hserved Hprod Htoken. cbv zeta.
  apply served_empty in Hserved as ->. split; [done|].
  assert (Hin : ∀ x : Z, bool_decide (x ∈ [413; 500; 429; 403]) = true →
                         x ∈ [413; 500; 429; 403])
    by (intros x; apply bool_decide_eq_true_1).
  split; [|split; [|apply POST_empty_tokens]]; unfold Route.POST;
    (destruct (negb _); [by (apply Hin || intros [=])|]);
    (destruct (Route.body request) as [b|]; [|by (apply Hin || intros _)]);
    destruct (Htoken b eq_refl) as [-> ->]; rewrite Hprod;
    destruct (RateLimit.check _ _ _ _) as [res limiter'];
    (destruct (negb _); [by (apply Hin || intros [=])|]);
    rewrite validate_empty; by (apply Hin || intros [=]).
Qed.

Lemma production_post_with_token_fails_witness :
  let env := {| Route.production := true;
                Route.is_email := RegExp.test Security.emailRegex;
                Route.database_ok := true |} in
  let got := Route.GET (replicate 16 1) (replicate 16 2) 0 ∅ in
  let request :=
    {| Route.content_length := None; Route.x_forwarded_for := None;
       Route.x_real_ip := None;
       Route.body := Some {| Route.name := Some (str "Jo");
                             Route.email := Some (str "jo@example.com");
                             Route.message :=
                               Some (str "Hello there, this is a test.");
                             Route.csrf_token :=
                               Some (Csrf.generateSessionId (replicate 16 2));
                             Route.sessionId :=
                               Some (Csrf.generateSessionId (replicate 16 1))
                          |} |} in
  (Route.POST env 1 1 request ∅ got.2).1.1 = 403.
Proof.
  cbv zeta.
  destruct (production_post_with_token_fails
    {| Route.production := true;
       Route.is_email := RegExp.test Security.emailRegex;
       Route.database_ok := true |} 1 1
    {| Route.content_length := None; Route.x_forwarded_for := None;
       Route.x_real_ip := None;
       Route.body := Some {| Route.name := Some (str "Jo");
                             Route.email := Some (str "jo@example.com");
                             Route.message :=
                               Some (str "Hello there, this is a test.");
                             Route.csrf_token :=
                               Some (Csrf.generateSessionId (replicate 16 2));
                             Route.sessionId :=
                               Some (Csrf.generateSessionId (replicate 16 1))
                          |} |}
    ∅ (Route.GET (replicate 16 1) (replicate 16 2) 0 ∅).2) as (_ & _ & _ & _).
  - apply Route.served_GET, Route.served_start.
  - reflexivity.
  - intros b [= <-]. by split.
  - by vm_compute.
Defined.

Section ThrottledPosts.
Import Route.
Variable env : Environment.
Implicit Types (tokenStore : gmap (list Z) Csrf.StoredToken)
  (limiter : gmap (list Z) RateLimit.RateLimitEntry) (request : Request).

Lemma POST_unreadable now now' request limiter tokenStore :
  ¬ readable request →
  (POST env now now' request limiter tokenStore).1.2 = limiter
  ∧ (POST env now now' request limiter tokenStore).2 = tokenStore
  ∧ ((POST env now now' request limiter tokenStore).1.1 = 413
     ∨ (POST env now now' request limiter tokenStore).1.1 = 500).
Proof.
  unfold readable, POST. intros Hno.
  destruct (Security.valid _); simpl; [|by auto].
  destruct (body request); [|by auto].
  exfalso. apply Hno. by split.
Qed.

Lemma POST_readable now now' request limiter tokenStore :
  readable request →
  let checked :=
    RateLimit.check RateLimit.contactFormLimiter now (client_ip request)
      limiter in
  (POST env now now' request limiter tokenStore).1.2 = checked.2
  ∧ (RateLimit.allowed checked.1 = false →
     (POST env now now' request limiter tokenStore).1.1 = 429
     ∧ (POST env now now' request limiter tokenStore).2 = tokenStore)
  ∧ (RateLimit.allowed checked.1 = true →
     (POST env now now' request limiter tokenStore).1.1 ≠ 429).
Proof.
  unfold readable, POST. intros [-> [b ->]]. cbv zeta. simpl negb. cbv iota.
  destruct (RateLimit.check _ _ _ _) as [res limiter']. simpl.
  destruct (RateLimit.allowed res); simpl.
  2:{ by repeat split. }
  destruct (_ && _ && _).
  - destruct (Csrf.validateCSRFToken _ _ _ _) as [[[|]|] tokenStore'];
      repeat destruct (negb _); by repeat split.
  - repeat destruct (negb _); by repeat split.
Qed.





End ThrottledPosts.

(** X20 — What [POST] charges.  A request that the size guard refuses, or
    whose body cannot be read, is answered 413 or 500 and is not counted by
    the throttle.  Every other request is counted, whatever its later fate;
    it is answered 429 exactly when the throttle refuses it, and then the
    token store is not touched. *)
Theorem post_is_charged_before_it_is_judged
    (env : Route.Environment) (now now' : Z) (request : Route.Request)
    (limiter : gmap (list Z) RateLimit.RateLimitEntry)
    (tokenStore : gmap (list Z) Csrf.StoredToken) :
  let out := Route.POST env now now' request limiter tokenStore in
  let checked :=
    RateLimit.check RateLimit.contactFormLimiter now (Route.client_ip request)
      limiter in
  (¬ Route.readable request →
     out.1.2 = limiter ∧ out.2 = tokenStore
     ∧ (out.1.1 = 413 ∨ out.1.1 = 500))
  ∧ (Route.readable request →
     out.1.2 = checked.2
     ∧ (out.1.1 = 429 ↔ RateLimit.allowed checked.1 = false)
     ∧ (out.1.1 = 429 → out.2 = tokenStore)).
Proof.
  cbv zeta. split.
  - apply POST_unreadable.
  - intros Hread.
    destruct (POST_readable env now now' request limiter tokenStore Hread)
      as (Hlim & Hblk & Hok).
    split; [done|].
    destruct (RateLimit.allowed _) eqn:Hall.
    + specialize (Hok eq_refl). by repeat split.
    + destruct (Hblk eq_refl) as [Hst Htok]. by repeat split.
Qed.

Lemma post_is_charged_before_it_is_judged_witness :
  let env := {| Route.production := false;
                Route.is_email := RegExp.test Security.emailRegex;
                Route.database_ok := true |} in
  let unread :=
    {| Route.content_length := Some (str "20000");
       Route.x_forwarded_for := Some (str "10.0.0.1");
       Route.x_real_ip := None; Route.body := None |} in
  let request :=
    {| Route.content_length := Some (str "120");
       Route.x_forwarded_for := Some (str "10.0.0.1");
       Route.x_real_ip := None;
       Route.body := Some {| Route.name := None; Route.email := None;
                             Route.message := None;
                             Route.csrf_token := None;
                             Route.sessionId := None |} |} in
  ((Route.POST env 0 0 unread ∅ ∅).1.2 = ∅
   ∧ (Route.POST env 0 0 unread ∅ ∅).2 = ∅
   ∧ ((Route.POST env 0 0 unread ∅ ∅).1.1 = 413
      ∨ (Route.POST env 0 0 unread ∅ ∅).1.1 = 500))
  ∧ (Route.POST env 0 0 request ∅ ∅).1.2
    = (RateLimit.check RateLimit.contactFormLimiter 0 (str "10.0.0.1") ∅).2
  ∧ (Route.POST env 0 0 request ∅ ∅).1.1 = 400.
Proof.
  cbv zeta. split; [|split; [|by vm_compute]].
  - apply post_is_charged_before_it_is_judged.
    intros [Hvalid _]. by vm_compute in Hvalid.
  - apply post_is_charged_before_it_is_judged.
    split; [by vm_compute | by eexists].
Defined.



(* ================================================================== *)
(** * What [validateEmail] lets through *)

Section Consumes.
Import RegExp.
Variable P : Z → bool.
Variables i s : bool.
Implicit Types (x y z : MatchState) (k : MatchState → option MatchState).

(** From [x] the match went on to [y], over code units of [P]. *)
Let went (x y : MatchState) : Prop :=
  ∃ consumed, rest x = consumed ++ rest y ∧ Forall (λ c, P c = true) consumed.

Lemma went_refl x : went x x.
Proof. by exists []. Qed.

Lemma went_trans x y z : went x y → went y z → went x z.
Proof.
  intros (c1 & H1 & F1) (c2 & H2 & F2). exists (c1 ++ c2). split.
  - by rewrite H1, H2, app_assoc.
  - by apply Forall_app.
Qed.

Lemma repeat_matcher_consumes m greedy :
  (∀ k x z, m k x = Some z → ∃ y, k y = Some z ∧ went x y) →
  ∀ fuel min max k x z,
    repeat_matcher m greedy k fuel min max x = Some z →
    ∃ y, k y = Some z ∧ went x y.
Proof.
  intros Hm. induction fuel as [|fuel IH]; intros min max k x z; [done|].
  cbn [repeat_matcher].
  assert (Hk : k x = Some z → ∃ y, k y = Some z ∧ went x y).
  { intros H. exists x. split; [done | apply went_refl]. }
  assert (Hd : m (λ y, if (min =? 0)%nat && (endIndex y =? endIndex x)%nat
                       then None
                       else repeat_matcher m greedy k fuel (Nat.pred min)
                              (Nat.pred <$> max) y) x = Some z →
               ∃ y, k y = Some z ∧ went x y).
  { intros (y1 & Hy1 & Hw1)%Hm. destruct (_ && _); [done|].
    apply IH in Hy1 as (y2 & Hy2 & Hw2).
    exists y2. split; [done | by eapply went_trans]. }
  destruct max as [[|max]|]; [done| |];
    destruct (negb _); [done| |done|];
    destruct greedy;
    repeat match goal with
    | |- match ?t with _ => _ end = _ → _ => destruct t eqn:?
    end; intros Hz; simplify_eq; auto.
Qed.

Lemma matcher_consumes r :
  atoms_only P i s r →
  ∀ k x z, matcher i s r k x = Some z →
    ∃ y, k y = Some z ∧ went x y ∧ (ends_at_end r = true → rest y = []).
Proof.
  induction r as [|c|a IHa b IHb|a IHa b IHb|greedy min max a IHa| | |a IHa];
    intros Hr k x z; simpl.
  - intros H. exists x. split; [done|]. split; [apply went_refl | done].
  - destruct (rest x) as [|ch rest'] eqn:Hrest; [done|].
    destruct (cls_matches i s c ch) eqn:Hc; [|done].
    intros H. eexists. split; [exact H|]. split; [|done].
    exists [ch]. split; [done|]. constructor; [by apply Hr | done].
  - destruct Hr as [Ha Hb].
    intros (y1 & Hy1 & Hw1 & He1)%(IHa Ha).
    apply (IHb Hb) in Hy1 as (y2 & Hy2 & Hw2 & He2).
    exists y2. split; [done|]. split; [by eapply went_trans|].
    intros [Hend|Hend]%orb_true_iff; [by apply He2|].
    destruct b; try done.
    (* [b] is [Empty]: the state after [a] is the final one *)
    destruct Hw2 as (c2 & Hc2 & _).
    specialize (He1 Hend). rewrite He1 in Hc2.
    symmetry in Hc2. by apply app_eq_nil in Hc2 as [_ ?].
  - destruct Hr as [Ha Hb].
    destruct (matcher i s a k x) as [z'|] eqn:Hza.
    + intros [= ->]. apply (IHa Ha) in Hza as (y & ? & ? & _).
      exists y. by repeat split.
    + intros (y & ? & ? & _)%(IHb Hb). exists y. by repeat split.
  - intros H. apply repeat_matcher_consumes in H as (y & ? & ?).
    + exists y. by repeat split.
    + intros k' x' z' (y & ? & ? & _)%(IHa Hr). by exists y.
  - destruct (_ =? _)%nat; [|done]. intros H. exists x.
    split; [done|]. split; [apply went_refl | done].
  - destruct (rest x) eqn:Hrest; [|done]. intros H. exists x.
    split; [done|]. split; [apply went_refl | done].
  - destruct (matcher i s a Some x); [done|]. intros H. exists x.
    split; [done|]. split; [apply went_refl | done].
Qed.

(** A match, from the start, of a pattern that ends with [$] has consumed the
    whole input. *)
Lemma exec_at_whole (R : RegExp) (input : list Z) e :
  ignoreCase R = i → dotAll R = s →
  atoms_only P i s (pattern R) → ends_at_end (pattern R) = true →
  exec_at R 0 input = Some e → Forall (λ c, P c = true) input.
Proof.
  intros Hi Hs Hatoms Hend. unfold exec_at. rewrite Hi, Hs.
  destruct (matcher i s (pattern R) Some _) as [z|] eqn:Hz; [|done].
  intros _. apply (matcher_consumes _ Hatoms) in Hz
    as (y & [= ->] & (consumed & Hc & HF) & Hrest).
  simpl in Hc. rewrite (Hrest Hend), app_nil_r in Hc. by subst.
Qed.

End Consumes.

Section EmailShape.
Import RegExp Security.

Lemma cls_ascii_range c x :
  cls_ascii c = true → cls_matches false false c x = true → 0 <= x <= 127.
Proof.
  induction c as [l|lo hi| | | | |a IHa b IHb|a IHa]; simpl; try done.
  - intros Hall [a [Ha ->%Z.eqb_eq]]%existsb_exists.
    apply (proj1 (forallb_forall _ _) Hall) in Ha.
    unfold between in Ha. apply andb_true_iff in Ha. lia.
  - rewrite orb_false_r. unfold between.
    intros [? ?]%andb_true_iff [? ?]%andb_true_iff. lia.
  - unfold is_digit, between. intros _ [? ?]%andb_true_iff. lia.
  - intros [Ha Hb]%andb_true_iff [H|H]%orb_true_iff; auto.
Qed.

Lemma atoms_check_only P r :
  atoms_check P r = true → atoms_only P false false r.
Proof.
  induction r as [|c|a IHa b IHb|a IHa b IHb|greedy min max a IHa| | |a IHa];
    cbn [atoms_check atoms_only]; try done.
  - intros [Hascii Hall]%andb_true_iff x Hx.
    pose proof (cls_ascii_range c x Hascii Hx) as Hrange.
    assert (Hin : In x (seqZ 0 128)).
    { apply list_elem_of_In, elem_of_seqZ. lia. }
    apply (proj1 (forallb_forall _ _) Hall) in Hin.
    by rewrite Hx in Hin.
  - intros [Ha Hb]%andb_true_iff. split; auto.
  - intros [Ha Hb]%andb_true_iff. split; auto.
Qed.

Lemma emailRegex_not_later (suffix : list Z) : ∀ index,
  search emailRegex (S index) suffix = false.
Proof.
  induction suffix as [|ch suffix IH]; intros index; [done|].
  cbn [search]. by rewrite IH.
Qed.

Lemma test_emailRegex_chars email :
  test emailRegex email = true → Forall (λ c, email_char c = true) email.
Proof.
  unfold test. intros H.
  assert (He : ∃ e, exec_at emailRegex 0 email = Some e).
  { destruct email as [|ch email]; cbn [search] in H;
      destruct (exec_at emailRegex 0 _) as [e|]; eauto; try done.
    by rewrite emailRegex_not_later in H. }
  destruct He as [e He].
  apply (exec_at_whole email_char false false emailRegex email e);
    try done.
  apply atoms_check_only. by vm_compute.
Qed.

Lemma test_emailRegex_at email :
  test emailRegex email = true → 64 ∈ email.
Proof.
  intros H. destruct (decide (64 ∈ email)) as [|Hno]; [done|].
  exfalso. unfold test in H.
  rewrite (search_must_hit [64] false false) in H; try done.
  apply Forall_forall. intros c Hc ->%list_elem_of_singleton. done.
Qed.

End EmailShape.

(** X22 — What [validateEmail] lets through.  An address that it accepts
    consists of ASCII letters, digits and the punctuation of the pattern's
    first class other than [+] (so: no white space, no control or non-ASCII
    character, no angle bracket, no double quote), it contains an [@], and it
    is at most 255 code units long. *)
Theorem accepted_email_shape (email : list Z) :
  Security.validateEmail email = true →
  Forall (λ c, Security.email_char c = true ∧ c ≠ 43) email
  ∧ 64 ∈ email
  ∧ (length email <= 255)%nat.
Proof.
  intros (Htest & Hlen & Hplus & _)%validateEmail_spec.
  split; [|split; [by apply test_emailRegex_at | done]].
  apply Forall_forall. intros c Hc. split.
  - by apply (proj1 (Forall_forall _ _) (test_emailRegex_chars email Htest)).
  - by intros ->.
Qed.

Lemma accepted_email_shape_witness :
  64 ∈ str "jo@example.com".
Proof.
  apply (accepted_email_shape (str "jo@example.com")). by vm_compute.
Defined.

(* ================================================================== *)
(** * The email field of the schema *)

Section SchemaEmail.
Import RegExp Validations.
Implicit Types (x y : MatchState) (k : MatchState → option MatchState).

Lemma atoms_avoid_only l i s r :
  atoms_avoid l i s r = true →
  atoms_only (λ c, negb (bool_decide (c ∈ l))) i s r.
Proof.
  induction r as [|c|a IHa b IHb|a IHa b IHb|greedy min max a IHa| | |a IHa];
    cbn [atoms_avoid atoms_only]; try done.
  - intros Hall ch Hx. apply negb_true_iff, bool_decide_eq_false_2.
    intros Hin%list_elem_of_In.
    apply (proj1 (forallb_forall _ _) Hall) in Hin. by rewrite Hx in Hin.
  - intros [Ha Hb]%andb_true_iff. split; auto.
  - intros [Ha Hb]%andb_true_iff. split; auto.
Qed.

(** A greedy [.*] gets as far as any position that only code units other
    than line terminators separate from where it starts: what follows it is
    tried there, unless a match was found further right. *)
Lemma star_dot_reaches i k before tail : ∀ fuel x,
  rest x = before ++ tail →
  Forall (λ c, is_line_terminator c = false) before →
  is_Some (k {| endIndex := endIndex x + length before; rest := tail |}) →
  (length (rest x) < fuel)%nat →
  is_Some (repeat_matcher (matcher i false (Atom Dot)) true k fuel 0 None x).
Proof.
  remember (matcher i false (Atom Dot)) as m eqn:Hm.
  induction before as [|c before IH]; intros fuel x Hrest Hnl Hk Hfuel;
    (destruct fuel as [|fuel]; [lia|]); cbn [repeat_matcher Nat.eqb negb].
  - destruct (m _ x); [done|].
    destruct x as [n l]. simpl in *. subst l.
    by rewrite Nat.add_0_r in Hk.
  - apply Forall_cons in Hnl as [Hc Hnl].
    assert (Hstep : ∀ d, m d x =
              d {| endIndex := S (endIndex x); rest := before ++ tail |}).
    { intros d. subst m. cbn [matcher]. rewrite Hrest.
      cbn [app cls_matches]. by rewrite Hc. }
    rewrite Hstep. cbn [endIndex andb].
    replace (S (endIndex x) =? endIndex x)%nat with false
      by (symmetry; apply Nat.eqb_neq; lia).
    cbn [Nat.pred fmap option_fmap option_map].
    destruct (IH fuel {| endIndex := S (endIndex x); rest := before ++ tail |})
      as [z Hz]; try done.
    + cbn [endIndex]. simpl length in Hk.
      by replace (S (endIndex x) + length before)%nat
        with (endIndex x + S (length before))%nat by lia.
    + rewrite Hrest in Hfuel. simpl in *. lia.
    + by rewrite Hz.
Qed.

Lemma double_dot_found i before after :
  Forall (λ c, is_line_terminator c = false) before →
  is_Some (matcher i false (cat [star Dot; lit ".."]) Some
             {| endIndex := 0; rest := before ++ str ".." ++ after |}).
Proof.
  intros Hnl.
  change (cat [star Dot; lit ".."])
    with (Cat (Rep true 0 None (Atom Dot))
              (Cat (Cat (Atom (Chars [46])) (Cat (Atom (Chars [46])) Empty))
                   Empty)).
  cbn [matcher rest]. rewrite Nat.add_0_l.
  apply (star_dot_reaches i _ before (str ".." ++ after)).
  - done.
  - done.
  - change (str "..") with [46; 46]. cbn [app rest cls_matches existsb].
    destruct i; by cbn.
  - cbn [rest]. lia.
Qed.

Lemma zod_emailRegex_not_later (suffix : list Z) : ∀ index,
  search zod_emailRegex (S index) suffix = false.
Proof.
  induction suffix as [|ch suffix IH]; intros index; [done|].
  cbn [search]. by rewrite IH.
Qed.

Lemma zod_email_exec email :
  zod_email email = true → ∃ e, exec_at zod_emailRegex 0 email = Some e.
Proof.
  unfold zod_email, test. intros H.
  destruct email as [|ch email]; cbn [search] in H;
    destruct (exec_at zod_emailRegex 0 _) as [e|]; eauto; try done.
  by rewrite zod_emailRegex_not_later in H.
Qed.

Lemma zod_email_one_line email :
  zod_email email = true →
  Forall (λ c, is_line_terminator c = false) email.
Proof.
  intros [e He]%zod_email_exec.
  apply (exec_at_whole (λ c, negb (bool_decide (c ∈ [10; 13; 8232; 8233])))
           true false) in He; try done.
  - eapply Forall_impl; [exact He|]. intros c Hc. simpl in Hc.
    apply negb_true_iff, bool_decide_eq_false_1 in Hc.
    unfold is_line_terminator.
    repeat (apply orb_false_iff; split); apply Z.eqb_neq; intros ->;
      apply Hc; set_solver.
  - apply atoms_avoid_only. by vm_compute.
Qed.

Lemma zod_email_no_double_dot email :
  zod_email email = true → ¬ substring_of (str "..") email.
Proof.
  intros Hz (before & after & ->).
  pose proof (zod_email_one_line _ Hz) as Hnl.
  apply Forall_app in Hnl as [Hnl _].
  destruct (double_dot_found true before after Hnl) as [z Hfound].
  apply zod_email_exec in Hz as [e He].
  unfold exec_at, zod_emailRegex in He.
  cbn [pattern ignoreCase dotAll] in He.
  remember (cat [star Dot; lit ".."]) as B eqn:HB.
  remember (lit ".") as A eqn:HA.
  cbn [cat foldr matcher endIndex Nat.eqb] in He.
  rewrite Hfound in He.
  by destruct (matcher true false A Some _).
Qed.

End SchemaEmail.

(** C7, as the claim states it, fails.  The library's email pattern admits
    [+] in the local part and the schema adds only the two length checks, so
    the schema stage accepts [a+b@example.com]. *)
Lemma schema_accepts_plus_address :
  Validations.email_accepted Validations.zod_email (str "a+b@example.com")
  = true
  ∧ 43 ∈ str "a+b@example.com"
  ∧ ¬ Validations.strict_email_policy Validations.zod_email
        (Validations.email_accepted Validations.zod_email).
Proof.
  assert (Hacc : Validations.email_accepted Validations.zod_email
                   (str "a+b@example.com") = true) by by vm_compute.
  assert (Hplus : 43 ∈ str "a+b@example.com")
    by (apply (bool_decide_unpack _); by vm_compute).
  split; [done|]. split; [done|]. intros H.
  by destruct (H _ Hacc) as (_ & _ & Hno & _).
Qed.

(** C7, amended — the email field of the schema.  A value for which the
    field raises no issue matches the library's email pattern, is 5 to 255
    code units long and holds no double dot: the pattern's lookahead refuses
    one anywhere in the address.  The stage has no rule about [+]. *)
Theorem schema_email_policy (email : list Z) :
  Validations.email_accepted Validations.zod_email email = true →
  Validations.zod_email email = true
  ∧ (5 <= length email <= 255)%nat
  ∧ ¬ RegExp.substring_of (str "..") email.
Proof.
  intros [Hz Hlen]%email_accepted_spec.
  split; [done|]. split; [done|]. by apply zod_email_no_double_dot.
Qed.

Lemma schema_email_policy_witness :
  Validations.zod_email (str "jo@example.com") = true
  ∧ ¬ RegExp.substring_of (str "..") (str "jo@example.com")
  ∧ Validations.email_accepted Validations.zod_email (str "a..b@example.com")
    = false.
Proof.
  destruct (schema_email_policy (str "jo@example.com")) as (Hz & _ & Hno);
    [by vm_compute|].
  split; [exact Hz|]. split; [exact Hno | by vm_compute].
Defined.
